(** * mpcformat: the 80-column observation decoder, the arc splitter and the
    tracklet clusterer, embedded from the Go sources.

    Conventions of the embedding.
    - A Go [string] is a sequence of bytes: [String.string], whose characters
      are the 8-bit [ascii].  [len], indexing and slicing are written out,
      together with the run-time panic Go raises out of range.
    - A Go [int] is a 64-bit integer: a [Z] with the wrap-around written out.
    - A Go [float64] is modelled by the exact rational it denotes ([Q]):
      rounding, infinities and NaN are not part of the model.
    - A function that may panic returns in [exec]; a Go [error] result is an
      [option error]. *)

From Stdlib Require Import ZArith QArith Qabs String Ascii List Bool Lia Permutation Sorted.
From stdpp Require Import gmap strings.

Import ListNotations.
Local Open Scope string_scope.
Local Open Scope list_scope.
Local Open Scope Z_scope.

(** ** Panics *)

Inductive exec (A : Type) : Type :=
| Ret (a : A)
| Panic.
Arguments Ret {A} a.
Arguments Panic {A}.

Definition bind {A B} (m : exec A) (k : A -> exec B) : exec B :=
  match m with
  | Ret a => k a
  | Panic => Panic
  end.

#[global] Instance exec_bind : MBind exec := fun A B k m => bind m k.
#[global] Instance exec_ret : MRet exec := fun A a => Ret a.

(** ** Go strings and the strconv / strings functions the decoder calls *)

Module GoStr.

Definition len (s : string) : nat := String.length s.

(** [s[i]]: panics when [i] is out of range. *)
Definition index (s : string) (i : nat) : exec ascii :=
  match String.get i s with
  | Some c => Ret c
  | None => Panic
  end.

(** [s[lo:hi]]: panics unless [lo <= hi <= len(s)]. *)
Definition slice (s : string) (lo hi : nat) : exec string :=
  if (lo <=? hi)%nat && (hi <=? len s)%nat
  then Ret (String.substring lo (hi - lo) s)
  else Panic.

(** [s[lo:]] *)
Definition sliceFrom (s : string) (lo : nat) : exec string :=
  slice s lo (len s).

(** [s[:hi]] *)
Definition sliceTo (s : string) (hi : nat) : exec string :=
  slice s 0 hi.

Definition byte_eqb (a b : ascii) : bool := Ascii.eqb a b.

(** White space of [strings.TrimSpace] within ASCII:
    tab, line feed, vertical tab, form feed, carriage return, space. *)
Definition isSpace (c : ascii) : bool :=
  let n := nat_of_ascii c in
  ((9 <=? n)%nat && (n <=? 13)%nat) || (n =? 32)%nat.

Fixpoint trimLeft (s : string) : string :=
  match s with
  | EmptyString => EmptyString
  | String c r => if isSpace c then trimLeft r else s
  end.

Fixpoint trimRight (s : string) : string :=
  match s with
  | EmptyString => EmptyString
  | String c r =>
      match trimRight r with
      | EmptyString => if isSpace c then EmptyString else String c EmptyString
      | r' => String c r'
      end
  end.

(** [strings.TrimSpace] (80-column records are ASCII). *)
Definition TrimSpace (s : string) : string := trimRight (trimLeft s).

Definition digitVal (c : ascii) : option Z :=
  let n := nat_of_ascii c in
  if (48 <=? n)%nat && (n <=? 57)%nat then Some (Z.of_nat (n - 48)) else None.

(** Value of a string of decimal digits, [None] on any other byte. *)
Fixpoint digits (s : string) (acc : Z) : option Z :=
  match s with
  | EmptyString => Some acc
  | String c r =>
      match digitVal c with
      | Some d => digits r (acc * 10 + d)
      | None => None
      end
  end.

Definition minInt : Z := - 2 ^ 63.
Definition maxInt : Z := 2 ^ 63 - 1.

(** 64-bit wrap-around of Go's [int]. *)
Definition wrap (z : Z) : Z := (z + 2 ^ 63) mod 2 ^ 64 - 2 ^ 63.

(** Sign of a numeric literal: [(negative, rest)]. *)
Definition splitSign (s : string) : bool * string :=
  match s with
  | String c r =>
      if byte_eqb c "-" then (true, r)
      else if byte_eqb c "+" then (false, r)
      else (false, s)
  | EmptyString => (false, s)
  end.

(** [strconv.Atoi]: an optional sign and at least one decimal digit,
    nothing else; [None] stands for the syntax or range error. *)
Definition Atoi (s : string) : option Z :=
  let '(neg, body) := splitSign s in
  match body with
  | EmptyString => None
  | _ =>
      match digits body 0 with
      | Some n =>
          let v := if neg then - n else n in
          if (minInt <=? v) && (v <=? maxInt) then Some v else None
      | None => None
      end
  end.

(** Decimal mantissa: digits with at most one point.  The scan stops at the
    first byte that is neither; the result is (value of the digits read,
    number of digits after the point, some digit seen, rest). *)
Fixpoint mantissa (s : string) (acc : Z) (frac : Z) (dot sawdigits : bool)
  : Z * Z * bool * string :=
  match s with
  | EmptyString => (acc, frac, sawdigits, s)
  | String c r =>
      match digitVal c with
      | Some d => mantissa r (acc * 10 + d) (if dot then frac + 1 else frac) dot true
      | None =>
          if byte_eqb c "." && negb dot
          then mantissa r acc frac true sawdigits
          else (acc, frac, sawdigits, s)
      end
  end.

Definition pow10 (e : Z) : Q := Qpower (10 # 1) e.

(** Largest magnitude that still rounds to a finite float64. *)
Definition maxFloat : Q := inject_Z (2 ^ 1024 - 2 ^ 970).

(** [strconv.ParseFloat(s, 64)] on decimal literals
    [sign? digits (. digits)? ((e|E) sign? digits)?] (at least one mantissa
    digit); a value too large for a float64 is the range error.  The
    hexadecimal, underscore, "inf" and "nan" spellings are errors here. *)
Definition ParseFloat (s : string) : option Q :=
  let '(neg, body) := splitSign s in
  let '(m, frac, saw, rest) := mantissa body 0 0 false false in
  if negb saw then None else
  let finish (e : Z) : option Q :=
    let v := (inject_Z m * pow10 (e - frac))%Q in
    if Qle_bool maxFloat v then None
    else Some (if neg then (- v)%Q else v) in
  match rest with
  | EmptyString => finish 0
  | String c r =>
      if byte_eqb c "e" || byte_eqb c "E" then
        let '(eneg, ebody) := splitSign r in
        match ebody with
        | EmptyString => None
        | _ =>
            match digits ebody 0 with
            | Some e => finish (if eneg then - e else e)
            | None => None
            end
        end
      else None
  end.

End GoStr.

Import GoStr.

(** ** Observations: the types of package observation the decoder fills in *)

Record ParallaxConst : Type := mkParallaxConst {
  Longitude : Q;
  RhoCosPhi : Q;
  RhoSinPhi : Q
}.

(** [observation.ParallaxMap]: site code to [*ParallaxConst]; a key mapped to
    [None] is a Go [nil] pointer (a site without fixed parallax constants). *)
Abbreviation ParallaxMap := (gmap string (option ParallaxConst)).

Record VMeas : Type := mkVMeas {
  MJD : Q;
  RA : Q;
  Dec : Q;
  VMag : Q;
  Qual : string
}.

Record Cart : Type := mkCart { cX : Q; cY : Q; cZ : Q }.

Record SiteObs : Type := mkSiteObs { siteMeas : VMeas; Par : ParallaxConst }.

Record SatObs : Type := mkSatObs { satMeas : VMeas; Sat : string; Offset : Cart }.

(** The interface [observation.VObs] with its two implementations. *)
Inductive VObs : Type :=
| VSite (s : SiteObs)
| VSat (s : SatObs).

Definition Meas (o : VObs) : VMeas :=
  match o with
  | VSite s => siteMeas s
  | VSat s => satMeas s
  end.

(** Go [error] values, one constructor for each place that creates one; the
    arguments are the values formatted into the message. *)
Inductive error : Type :=
| EOF
| ErrObs80Length
| ErrObs80Date (d : string)
| ErrObs80RA (f : string)
| ErrObs80Dec (f : string)
| ErrObs80Mag (f : string)
| ErrObs80Obscode (c : string)
| ErrSat2Desig (desig des1 : string)
| ErrSat2Date (d : string)
| ErrSat2DateDiff (d : string)
| ErrSat2Obscode (c sat : string)
| ErrSat2Offset (f : string)
| ErrLineLength (n : nat)
| ErrSat2WithoutLine1
| ArcError (e : error)
| ReadError (msg : string).

(** ** obs80.go *)

Module Obs80.

Definition flookup : list Z :=
  [0; 306; 337; 0; 31; 61; 92; 122; 153; 184; 214; 245; 275].

(** [flookup[i]] on the 13-element array: panics out of range. *)
Definition flookupAt (i : Z) : exec Z :=
  if (0 <=? i) && (i <? 13)
  then match nth_error flookup (Z.to_nat i) with
       | Some v => Ret v
       | None => Panic
       end
  else Panic.

(** Go's [/] on [int] truncates toward zero. *)
Definition idiv (a b : Z) : Z := wrap (Z.quot a b).
Definition iadd (a b : Z) : Z := wrap (a + b).
Definition isub (a b : Z) : Z := wrap (a - b).
Definition imul (a b : Z) : Z := wrap (a * b).

Definition ParseObs80Date (d : string) : exec (Q * bool) :=
  if (len d <? 10)%nat then Ret (0%Q, false) else
  y ← sliceTo d 4;
  match Atoi y with
  | None => Ret (0%Q, false)
  | Some year =>
      df ← slice d 5 7;
      c0 ← index df 0;
      _ ← (if byte_eqb c0 " " then sliceFrom df 1 else Ret df);
      ms ← slice d 5 7;
      match Atoi ms with
      | None => Ret (0%Q, false)
      | Some month =>
          ds ← sliceFrom d 8;
          match ParseFloat (TrimSpace ds) with
          | None => Ret (0%Q, false)
          | Some day =>
              let z := iadd year (idiv (isub month 14) 12) in
              fm ← flookupAt month;
              let m :=
                isub (iadd (isub (iadd (iadd fm (imul 365 z)) (idiv z 4))
                                 (idiv z 100))
                           (idiv z 400))
                     678882 in
              Ret ((inject_Z m + day)%Q, true)
          end
      end
  end.

(** The value [ParseObs80Date] returns for year [Y], month [M] and day [D],
    written without the 64-bit wrap-around: every quotient truncates toward
    zero, as Go's integer division does. *)
Definition tableAt (M : Z) : Z := nth (Z.to_nat M) flookup 0.

Definition truncMJD (Y M : Z) (D : Q) : Q :=
  let z := Y + (M - 14) ÷ 12 in
  (inject_Z (tableAt M + 365 * z + z ÷ 4 - z ÷ 100 + z ÷ 400 - 678882) + D)%Q.

(** The formula in the words of the specification: the same sum with the
    mathematical floor for every quotient. *)
Definition specMJD (Y M : Z) (D : Q) : Q :=
  let z := Y + (M - 14) / 12 in
  (inject_Z (tableAt M + 365 * z + z / 4 - z / 100 + z / 400 - 678882) + D)%Q.

(** [math.Pi] as a float64. *)
Definition Pi : Q := 884279719003555 # 281474976710656.

(** Sexagesimal field: two integers and a real, [(a*60+b)*60 + c]. *)
Definition sexagesimal (a b : Z) (c : Q) : Q :=
  (inject_Z (iadd (imul a 60) b) * 60 + c)%Q.

(** The three results [(desig, o, err)] of [ParseObs80]: either [o] is an
    observation and [err] is nil, or [o] is nil and [err] is set. *)
Inductive parsed : Type :=
| Parsed (desig : string) (o : VObs)
| Failed (desig : string) (err : error).

Definition ParseObs80 (line80 : string) (ocm : ParallaxMap) : exec parsed :=
  if negb (len line80 =? 80)%nat then Ret (Failed "" ErrObs80Length) else
  f ← sliceTo line80 12;
  let desig := TrimSpace f in
  d ← slice line80 15 32;
  dt ← ParseObs80Date d;
  let '(mjd, ok) := dt in
  if negb ok then Ret (Failed desig (ErrObs80Date d)) else
  f1 ← slice line80 32 34;
  f2 ← slice line80 35 37;
  f3 ← slice line80 38 44;
  fra ← slice line80 32 44;
  match Atoi (TrimSpace f1), Atoi (TrimSpace f2), ParseFloat (TrimSpace f3) with
  | Some rah, Some ram, Some ras =>
      decg ← index line80 44;
      g1 ← slice line80 45 47;
      g2 ← slice line80 48 50;
      g3 ← slice line80 51 56;
      fdec ← slice line80 44 56;
      match Atoi (TrimSpace g1), Atoi (TrimSpace g2), ParseFloat (TrimSpace g3) with
      | Some decd, Some decm, Some decs =>
          fm ← slice line80 65 70;
          let ts := TrimSpace fm in
          band ← index line80 70;
          let magr : option Q :=
            if (len ts =? 0)%nat then Some 0%Q
            else match ParseFloat ts with
                 | None => None
                 | Some mag =>
                     if byte_eqb band "V" then Some mag
                     else if byte_eqb band "B" then Some (mag - (8 # 10))%Q
                     else Some (mag + (4 # 10))%Q
                 end in
          match magr with
          | None => Ret (Failed desig (ErrObs80Mag ts))
          | Some mag =>
              c ← slice line80 77 80;
              match ocm !! c with
              | None => Ret (Failed "" (ErrObs80Obscode c))
              | Some par =>
                  obscode ← slice line80 77 80;
                  c14 ← index line80 14;
                  let dec0 := (sexagesimal decd decm decs * Pi / inject_Z (180 * 3600))%Q in
                  let m := {| MJD := mjd;
                              RA := (sexagesimal rah ram ras * Pi / inject_Z (12 * 3600))%Q;
                              Dec := if byte_eqb decg "-" then (- dec0)%Q else dec0;
                              VMag := mag;
                              Qual := obscode |} in
                  let o :=
                    match par with
                    | Some p =>
                        if byte_eqb c14 "S"
                        then VSat {| satMeas := m; Sat := obscode; Offset := mkCart 0 0 0 |}
                        else VSite {| siteMeas := m; Par := p |}
                    | None => VSat {| satMeas := m; Sat := obscode; Offset := mkCart 0 0 0 |}
                    end in
                  Ret (Parsed desig o)
              end
          end
      | _, _, _ => Ret (Failed desig (ErrObs80Dec fdec))
      end
  | _, _, _ => Ret (Failed desig (ErrObs80RA fra))
  end.

Definition parseMpcOffset (off : string) : exec (Q * bool) :=
  t ← sliceFrom off 1;
  match ParseFloat (TrimSpace t) with
  | None => Ret (0%Q, false)
  | Some v =>
      c ← index off 0;
      if byte_eqb c "-" then Ret ((- v)%Q, true)
      else if byte_eqb c "+" || byte_eqb c " " then Ret (v, true)
      else Ret (0%Q, false)
  end.

(** "Scale factor = 1 / 1 AU in km": [const sf = 1 / 149.59787e6]. *)
Definition sf : Q := 1 # 149597870.

(** The factor in the words of the specification, "Earth-radius/AU": the
    equatorial radius of the Earth (6378.14 km, IAU 1976) over the
    astronomical unit of the source (149.59787e6 km). *)
Definition specScale : Q := ((637814 # 100) / (149597870 # 1))%Q.

(** [ParseSat2] updates [*s1] in place: the model returns the updated
    record next to the error. *)
Definition ParseSat2 (line80 des1 : string) (s1 : SatObs)
  : exec (SatObs * option error) :=
  f ← sliceTo line80 12;
  let desig := TrimSpace f in
  if negb (String.eqb desig des1) then Ret (s1, Some (ErrSat2Desig desig des1)) else
  d ← slice line80 15 32;
  dt ← ParseObs80Date d;
  let '(date2, ok) := dt in
  if negb ok then Ret (s1, Some (ErrSat2Date d)) else
  if negb (Qeq_bool date2 (MJD (satMeas s1))) then Ret (s1, Some (ErrSat2DateDiff d)) else
  c ← slice line80 77 80;
  if negb (String.eqb c (Sat s1)) then Ret (s1, Some (ErrSat2Obscode c (Sat s1))) else
  fx ← slice line80 34 46;
  rx ← parseMpcOffset fx;
  if negb (snd rx) then Ret (s1, Some (ErrSat2Offset fx)) else
  fy ← slice line80 46 58;
  ry ← parseMpcOffset fy;
  if negb (snd ry) then Ret (s1, Some (ErrSat2Offset fy)) else
  fz ← slice line80 58 70;
  rz ← parseMpcOffset fz;
  if negb (snd rz) then Ret (s1, Some (ErrSat2Offset fz)) else
  c32 ← index line80 32;
  let scale (v : Q) : Q := if byte_eqb c32 "1" then (v * sf)%Q else v in
  Ret ({| satMeas := satMeas s1; Sat := Sat s1;
          Offset := mkCart (scale (fst rx)) (scale (fst ry)) (scale (fst rz)) |},
       None).


(** The errors [ParseSat2] creates. *)
Definition sat2Error (e : error) : Prop :=
  match e with
  | ErrSat2Desig _ _ | ErrSat2Date _ | ErrSat2DateDiff _
  | ErrSat2Obscode _ _ | ErrSat2Offset _ => True
  | _ => False
  end.

End Obs80.

(** ** Sample records, from the tests of the package *)

Module Samples.

(** An 80-character line whose month field reads 13. *)
Definition month13 : string :=
  "     K11Q14F  C2014 13 03.40285 02 53 00.70 +10 38 30.3          19.2 VqER031703".

Definition tcSatLine1 : string :=
  "03620         S1996 08 30.51477 21 07 31.918-05 22 00.82                27764250".

Definition tcSatLine2 : string :=
  "03620         s1996 08 30.51477 1 -  344.3553 - 6919.1239 +  872.2948   27764250".

(** The continuation line with the units column blank. *)
Definition tcSatLine2au : string :=
  "03620         s1996 08 30.51477   -  344.3553 - 6919.1239 +  872.2948   27764250".


(** Line 1 of the satellite pair as [ParseObs80] decodes it. *)
Definition tcSat1 : SatObs :=
  {| satMeas := {| MJD := 5032551477 # 100000;
                   RA := 67251168678721406568490 # 12159718993900339200000;
                   Dec := -1708500928051826551510 # 18239578490850508800000;
                   VMag := 0;
                   Qual := "250" |};
     Sat := "250";
     Offset := mkCart 0 0 0 |}.

Definition short : string :=
  "NE00030 C2004 09 16.15206 16 13 11.57 +20 52 23.7 21.1 V 291".

Definition o1Line : string :=
  "     NE00030  C2004 09 16.15206 16 13 11.57 +20 52 23.7          21.1 Vd     291".

Definition o2Line1 : string :=
  "     NE00199  C2007 02 09.24234 06 08 06.06 +43 13 26.2          20.1  c     704".

Definition o2Line2 : string :=
  "     NE00199  C2007 02 09.25415 06 08 05.51 +43 13 01.7          20.1  c     704".

(** A parallax map with the sites of the sample lines; 250 is a satellite. *)
Definition siteConst : ParallaxConst := mkParallaxConst 0 0 0.

Definition sampleMap : ParallaxMap :=
  <["291" := Some siteConst]>
    (<["704" := Some siteConst]> (<["250" := None]> ∅)).

(** Lines of obscode.dat, from the sample of the tests, and the sample: a
    heading, a site, and two sites without parallax constants. *)
Definition ocdHeading : string := "Code  Long.   cos      sin    Name".

Definition ocdGreenwich : string := "000   0.0000 0.62411 +0.77873 Greenwich".

Definition ocdHipparcos : string := "248   0.000000.000000 0.000000Hipparcos".

Definition ocdHubble : string :=
  "250                           Hubble Space Telescope".

Definition newline : string := String "010" EmptyString.

Definition ocdSample : string :=
  (newline ++ ocdHeading ++ newline ++ ocdGreenwich ++ newline
     ++ ocdHipparcos ++ newline ++ ocdHubble ++ newline)%string.

(** [unit.AngleFromDeg]: degrees to radians. *)
Definition angleFromDeg (d : Q) : Q := (d / 180 * Obs80.Pi)%Q.

(** The stream "one arc, a short line, a second arc". *)
Definition badMix : list string := [o1Line; short; o2Line1; o2Line2].

End Samples.

(** ** The arc splitter *)

Module Arc.

Import Obs80.

(** [observation.Arc] *)
Record Arc : Type := mkArc { Desig : string; Obs : list VObs }.

(** The [bufio.Scanner] over the stream: the lines still to be scanned and
    the error, if any, with which the reader ends after the last of them. *)
Record Scanner : Type := mkScanner {
  lines : list string;
  readErr : option error
}.

(** [s.Err()] once [Scan] has returned false: nil when the reader ended with
    [io.EOF]. *)
Definition scanErr (rerr : option error) : option error :=
  match rerr with
  | Some EOF => None
  | e => e
  end.

(** The variables the closure returned by [ArcSplitter] captures. *)
Record splitter : Type := mkSplitter {
  s : Scanner;
  a : Arc;
  desig : string;
  o : option VObs;
  err : option error
}.

Definition ArcSplitter (rObs : Scanner) : splitter :=
  {| s := rObs; a := mkArc "" []; desig := ""; o := None; err := None |}.

(** What one call returns, an arc pointer (nil is [None]) and an error,
    and the closure variables it leaves behind. *)
Definition outcome : Type := option Arc * option error * splitter.

(** In the loop [o] is nil exactly when [a.Obs] is empty, and otherwise is
    the pointer stored last in [a.Obs]: the write [ParseSat2] makes through
    it is a write to the last element of [a.Obs]. *)
Definition setLast (l : list VObs) (v : VObs) : list VObs :=
  match rev l with
  | [] => []
  | _ :: r => rev r ++ [v]
  end.

Section Splitter.

Variable pMap : ParallaxMap.

(** After [break arc]: "there was a parse error". *)
Definition parseError (rest : list string) (rerr : option error)
           (a : Arc) (desig : string) (e : error) : outcome :=
  match Obs a with
  | [] => (Some a, Some e, mkSplitter (mkScanner rest rerr) a desig None None)
  | _ => (Some a, None, mkSplitter (mkScanner rest rerr) a desig None (Some e))
  end.

(** The loop [arc: for { ... }], one iteration for each line scanned. *)
Fixpoint arcLoop (ls : list string) (rerr : option error)
         (a : Arc) (desig : string) (o : option VObs) : exec outcome :=
  match ls with
  | [] =>
      match scanErr rerr with
      | Some e =>
          Ret (None, Some e, mkSplitter (mkScanner [] rerr) a desig o (Some e))
      | None =>
          match Obs a with
          | [] => Ret (None, Some EOF, mkSplitter (mkScanner [] rerr) a desig o None)
          | _ => Ret (Some a, None, mkSplitter (mkScanner [] rerr) a desig None (Some EOF))
          end
      end
  | line :: rest =>
      if negb (len line =? 80)%nat
      then Ret (parseError rest rerr a desig (ArcError (ErrLineLength (len line))))
      else
        c ← index line 14;
        if byte_eqb c "s" then
          match o with
          | Some (VSat s1) =>
              r ← ParseSat2 line desig s1;
              match r with
              | (_, Some e) => Ret (parseError rest rerr a desig e)
              | (s1', None) =>
                  arcLoop rest rerr
                          (mkArc (Desig a) (setLast (Obs a) (VSat s1')))
                          desig (Some (VSat s1'))
              end
          | _ => Ret (parseError rest rerr a desig (ArcError ErrSat2WithoutLine1))
          end
        else
          r ← ParseObs80 line pMap;
          match r with
          | Failed desig' e => Ret (parseError rest rerr a desig' (ArcError e))
          | Parsed desig' o' =>
              match Obs a with
              | [] => arcLoop rest rerr (mkArc desig' (Obs a ++ [o'])) desig' (Some o')
              | _ =>
                  if String.eqb desig' (Desig a)
                  then arcLoop rest rerr (mkArc (Desig a) (Obs a ++ [o'])) desig' (Some o')
                  else Ret (Some a, None,
                            mkSplitter (mkScanner rest rerr) a desig' (Some o') None)
              end
          end
  end.

(** One call of the function [ArcSplitter] returns. *)
Definition next (st : splitter) : exec outcome :=
  match err st with
  | Some e =>
      Ret (None, Some e, mkSplitter (s st) (a st) (desig st) (o st) None)
  | None =>
      let a0 :=
        match o st with
        | Some ob => mkArc (desig st) [ob]
        | None => mkArc (Desig (a st)) []
        end in
      arcLoop (lines (s st)) (readErr (s st)) a0 (desig st) (o st)
  end.

(** [n] successive calls: the results in order and the final state. *)
Fixpoint calls (n : nat) (st : splitter)
  : exec (list (option Arc * option error) * splitter) :=
  match n with
  | O => Ret ([], st)
  | S n' =>
      r ← next st;
      let '(arc, e, st1) := r in
      rs ← calls n' st1;
      Ret ((arc, e) :: fst rs, snd rs)
  end.

(** *** The shape of the input, for the statements about arcs *)

(** The observation carried from the previous call, as the list with which
    the arc under construction starts. *)
Definition carry (st : splitter) : list VObs :=
  match o st with
  | Some ob => [ob]
  | None => []
  end.

(** A first line (column 15 is not 's') that decodes to observation [ob]
    of designation [d]. *)
Definition GoodLine (d : string) (line : string) (ob : VObs) : Prop :=
  len line = 80%nat
  /\ (exists c, index line 14 = Ret c /\ byte_eqb c "s" = false)
  /\ ParseObs80 line pMap = Ret (Parsed d ob).

(** [Run d acc ls out]: the lines [ls] all belong to designation [d];
    decoded after the observations [acc], they give the observations
    [out].  A first line adds its observation; a continuation line is
    merged into the satellite observation that ends the list. *)
Inductive Run (d : string) : list VObs -> list string -> list VObs -> Prop :=
| run_nil acc : Run d acc [] acc
| run_obs acc line ls ob out :
    GoodLine d line ob ->
    Run d (acc ++ [ob]) ls out ->
    Run d acc (line :: ls) out
| run_sat2 acc s1 s1' line ls out :
    len line = 80%nat ->
    (exists c, index line 14 = Ret c /\ byte_eqb c "s" = true) ->
    ParseSat2 line d s1 = Ret (s1', None) ->
    Run d (acc ++ [VSat s1']) ls out ->
    Run d (acc ++ [VSat s1]) (line :: ls) out.

(** [ParseFails d acc line e]: read after the observations [acc] of
    designation [d], the line fails to parse, with error [e]: wrong
    length, a first line the decoder rejects, a continuation line without
    a satellite observation before it, a continuation line that does not
    match it. *)
Inductive ParseFails (d : string) (acc : list VObs) : string -> error -> Prop :=
| fails_length line :
    len line <> 80%nat ->
    ParseFails d acc line (ArcError (ErrLineLength (len line)))
| fails_obs line d' e :
    len line = 80%nat ->
    (exists c, index line 14 = Ret c /\ byte_eqb c "s" = false) ->
    ParseObs80 line pMap = Ret (Failed d' e) ->
    ParseFails d acc line (ArcError e)
| fails_sat2_alone line :
    len line = 80%nat ->
    (exists c, index line 14 = Ret c /\ byte_eqb c "s" = true) ->
    (forall s1, last acc <> Some (VSat s1)) ->
    ParseFails d acc line (ArcError ErrSat2WithoutLine1)
| fails_sat2 line s1 s1' e :
    len line = 80%nat ->
    (exists c, index line 14 = Ret c /\ byte_eqb c "s" = true) ->
    last acc = Some (VSat s1) ->
    ParseSat2 line d s1 = Ret (s1', Some e) ->
    ParseFails d acc line e.


(** How the call that returned [arc] ended, on the lines [tail] that
    follow the run of the arc, and the state [st] it left: at the end of
    the stream; at a first line of another designation, carried to the
    next call; at a line that fails to parse, whose error is carried to
    the next call. *)
Inductive Ending (arc : Arc) (rerr : option error) : list string -> splitter -> Prop :=
| end_eof st :
    scanErr rerr = None ->
    lines (s st) = [] -> o st = None -> err st = Some EOF ->
    Ending arc rerr [] st
| end_boundary t rest d2 o2 st :
    GoodLine d2 t o2 -> d2 <> Desig arc ->
    lines (s st) = rest -> desig st = d2 -> o st = Some o2 -> err st = None ->
    Ending arc rerr (t :: rest) st
| end_failure t rest e st :
    ParseFails (Desig arc) (Obs arc) t e ->
    lines (s st) = rest -> o st = None -> err st = Some e ->
    Ending arc rerr (t :: rest) st.

End Splitter.

(** The stream is exhausted and nothing is carried. *)
Definition AtEOS (st : splitter) : Prop :=
  lines (s st) = [] /\ scanErr (readErr (s st)) = None
  /\ o st = None /\ err st = None.

(** [io.EOF] is carried only once the stream is exhausted. *)
Definition EOFCarried (st : splitter) : Prop :=
  err st = Some EOF ->
  lines (s st) = [] /\ scanErr (readErr (s st)) = None /\ o st = None.

(** What remains to be done before a call can return [io.EOF]: two for each
    line to scan, two for a carried observation, one for a carried error. *)
Definition pending (st : splitter) : nat :=
  2 * length (lines (s st))
  + (match o st with Some _ => 2 | None => 0 end)
  + (match err st with Some _ => 1 | None => 0 end).

(** The errors a call can return, for a reader that ends with [rerr]. *)
Definition errorKind (rerr : option error) (e : error) : Prop :=
  e = EOF \/ scanErr rerr = Some e \/ (exists e0, e = ArcError e0)
  \/ Obs80.sat2Error e.

End Arc.

(** ** tracklet.go *)

Module Tracklet.

(** A value implementing the interface [TrackletSplitter]: what its two
    methods return. *)
Record TrackletSplitter : Type := mkTS { tsMJD : Q; tsObserver : string }.

Record td : Type := mkTd { mjd : Q; index : nat }.

Record tk : Type := mkTk { tkIndex : list nat; mean : Q }.

(** [x < y] on float64 values. *)
Definition Qltb (x y : Q) : bool := negb (Qle_bool y x).

(** [dated.Less] and [tkList.Less] *)
Definition datedLess (x y : td) : bool := Qltb (mjd x) (mjd y).
Definition tkLess (x y : tk) : bool := Qltb (mean x) (mean y).

(** The first loop: [m[o] = append(m[o], td{d, i})]. *)
Fixpoint collect (i : nat) (ts : list TrackletSplitter)
         (m : gmap string (list td)) : gmap string (list td) :=
  match ts with
  | [] => m
  | t :: r =>
      collect (S i) r
              (<[tsObserver t := (default [] (m !! tsObserver t)
                                    ++ [mkTd (tsMJD t) i])%list]> m)
  end.

(** The closure [appendTl]: the tracklet it appends to [tl]. *)
Definition appendTl (set : list td) : tk :=
  {| tkIndex := map index set;
     mean := (fold_left (fun s o => s + mjd o) set 0
              / inject_Z (Z.of_nat (length set)))%Q |}.

(** The loop that looks for the longest gap: [s] is the loop counter,
    [rest] is [set[s:]]; the result is [split]. *)
Fixpoint gapLoop (s : nat) (rest : list td) (next longest : Q) (split : nat) : nat :=
  match rest with
  | [] => split
  | x :: r =>
      let g := (mjd x - next)%Q in
      if Qltb longest g
      then gapLoop (S s) r (mjd x) g s
      else gapLoop (S s) r (mjd x) longest split
  end.

(** [reduce(lf); reduce(rt)] on the tracklets each call appends. *)
Definition andThen (x y : option (exec (list tk))) : option (exec (list tk)) :=
  match x with
  | Some (Ret l1) =>
      match y with
      | Some (Ret l2) => Some (Ret (l1 ++ l2)%list)
      | other => other
      end
  | other => other
  end.

(** [len(l) == 2 && l[1].mjd-l[0].mjd < .5] *)
Definition sameNightPair (l : list td) : bool :=
  match l with
  | [x; y] => Qltb (mjd y - mjd x) (1 # 2)%Q
  | _ => false
  end.

(** The recursive closure [reduce]; the result lists, in order, the
    tracklets the call appends to [tl].  The recursion is on sub-slices:
    [fuel] bounds its depth, [None] is fuel exhausted. *)
Fixpoint reduce (fuel : nat) (set : list td) : option (exec (list tk)) :=
  match fuel with
  | O => None
  | S fuel' =>
      match last set, head set with
      | Some hi, Some lo =>
          let d := (mjd hi - mjd lo)%Q in
          if Qltb d (42 # 1000)%Q then Some (Ret [appendTl set])
          else if (length set <=? 5)%nat && Qltb d (125 # 1000)%Q
          then Some (Ret [appendTl set])
          else if (length set =? 2)%nat then
            if Qltb d (1 # 2)%Q then Some (Ret [appendTl set])
            else Some (Ret [appendTl (take 1 set); appendTl (drop 1 set)])
          else
            match set with
            | s0 :: s1 :: rest =>
                let split := gapLoop 2 rest (mjd s1) (mjd s1 - mjd s0)%Q 1 in
                let lf := take split set in
                let rt := drop split set in
                if (3 <=? length lf)%nat && (3 <=? length rt)%nat
                then andThen (reduce fuel' lf) (reduce fuel' rt)
                else if sameNightPair lf && (2 <=? length rt)%nat
                then andThen (Some (Ret [appendTl lf])) (reduce fuel' rt)
                else if sameNightPair rt && (2 <=? length lf)%nat
                then andThen (reduce fuel' lf) (Some (Ret [appendTl rt]))
                else if (length set =? 3)%nat && Qltb d (1 # 2)%Q
                then Some (Ret [appendTl set])
                else if Qltb d (1 # 4)%Q then Some (Ret [appendTl set])
                else andThen (reduce fuel' lf) (reduce fuel' rt)
            | _ => Some Panic
            end
      | _, _ => Some Panic
      end
  end.

(** [insertionSort] of package sort, the algorithm [sort.Sort] runs on a
    slice of at most 12 elements: each element in turn is swapped leftwards
    while it is less than its left neighbour.  [insertLeft x p] inserts [x]
    after the sorted prefix whose reversal is [p]. *)
Fixpoint insertLeft {A} (less : A -> A -> bool) (x : A) (p : list A) : list A :=
  match p with
  | [] => [x]
  | y :: p' => if less x y then y :: insertLeft less x p' else x :: p
  end.

Definition insertionSort {A} (less : A -> A -> bool) (l : list A) : list A :=
  rev (fold_left (fun p x => insertLeft less x p) l []).

Section Clusterer.

(** [sort.Sort], by the [Less] method of the slice type.  The package
    promises an ascending order and no stability. *)
Variable gosort : forall A : Type, (A -> A -> bool) -> list A -> list A.

(** The loop [for _, t1 := range m]: [keys] is the order in which the
    range visits the keys of the map, which Go leaves unspecified. *)
Fixpoint reduceAll (keys : list string) (m : gmap string (list td))
  : option (exec (list tk)) :=
  match keys with
  | [] => Some (Ret [])
  | k :: ks =>
      let t1 := gosort td datedLess (default [] (m !! k)) in
      andThen (reduce (length t1) t1) (reduceAll ks m)
  end.

Definition FindTrackletsIndex (keys : list string) (ts : list TrackletSplitter)
  : option (exec (list (list nat))) :=
  let m := collect 0 ts ∅ in
  match reduceAll keys m with
  | Some (Ret tl) => Some (Ret (map tkIndex (gosort tk tkLess tl)))
  | Some Panic => Some Panic
  | None => None
  end.

End Clusterer.

(** An order in which [range m] may visit the keys: each key once. *)
Definition rangeOrder (m : gmap string (list td)) (keys : list string) : Prop :=
  NoDup keys /\ forall k, In k keys <-> is_Some (m !! k).

(** The slice [m[k]] the first loop builds from the entities [ts], the first
    of which has index [i]. *)
Fixpoint group (k : string) (i : nat) (ts : list TrackletSplitter) : list td :=
  match ts with
  | [] => []
  | t :: r =>
      if String.eqb (tsObserver t) k
      then mkTd (tsMJD t) i :: group k (S i) r
      else group k (S i) r
  end.

(** The tracklets [reduce] appends for a slice. *)
Definition reduced (set : list td) : list tk :=
  match reduce (length set) set with
  | Some (Ret r) => r
  | _ => []
  end.


(** The observers of the entities, each once: the keys of the map [m]. *)
Definition observers (ts : list TrackletSplitter) : list string :=
  remove_dups (map tsObserver ts).







(** A [Less] method that compares a float64 field. *)
Definition lessBy {A : Type} (key : A -> Q) (x y : A) : bool :=
  Qltb (key x) (key y).

(** A non-empty slice whose last time is less than half a day after its
    first. *)
Definition spanOk (seg : list td) : Prop :=
  exists lo hi, head seg = Some lo /\ last seg = Some hi
                /\ (mjd hi - mjd lo < 1 # 2)%Q.

(** [r] is the tracklets of consecutive pieces of [set], each within half a
    day. *)
Definition Segs (set : list td) (r : list tk) : Prop :=
  exists segs, r = map appendTl segs /\ concat segs = set
               /\ Forall spanOk segs.

(** The time of entity [i], and the mean time of the entities [tr]. *)
Definition timeAt (ts : list TrackletSplitter) (i : nat) : Q :=
  tsMJD (nth i ts (mkTS 0 "")).

Definition meanTime (ts : list TrackletSplitter) (tr : list nat) : Q :=
  (fold_left (fun s i => s + timeAt ts i) tr 0
   / inject_Z (Z.of_nat (length tr)))%Q.



End Tracklet.

(** ** Sample entities *)

Module TrackletSamples.

Import Tracklet.




(** Two observations of one site half an hour apart, with an observation of
    another site between them in the input. *)
Definition interleaved : list TrackletSplitter :=
  [mkTS (5704510 # 100) "F51"; mkTS 57046 "G96"; mkTS (5704512 # 100) "F51"].

End TrackletSamples.

(** ** Split: arcs sent on a channel *)

Module Split.

Import Obs80 Arc.

(** What the calls of [bf.ReadLine] return, in order: lines with their
    [isPrefix] flag while [err] is nil, then the error with which the reader
    ends, [io.EOF] at the end of the stream. *)
Record LineReader : Type := mkLineReader {
  chunks : list (string * bool);
  endErr : error
}.

(** The values sent: an arc on [arcCh]; on [errCh] a read error, or the error
    "Split: unexpected long line". *)
Inductive event : Type :=
| ArcSent (a : Arc)
| ErrSent (e : error)
| LongLineSent.

(** The variables of the loop.  As in the arc splitter, [o] is nil exactly
    when [obuf] is empty and is otherwise the pointer stored last in [obuf]:
    the write [ParseSat2] makes through it is a write to the last element of
    [obuf]. *)
Record vars : Type := mkVars {
  des0 : string;
  o : option VObs;
  desig : string;
  obuf : list VObs
}.

(** The loop of [sendValid] over the observation times: false stands for
    the [return] inside it. *)
Fixpoint increasing (t0 : Q) (obuf : list VObs) : bool :=
  match obuf with
  | [] => true
  | ob :: r =>
      let t := MJD (Meas ob) in
      if Qle_bool t t0 then false else increasing t r
  end.

(** [sendValid]: what it sends on [arcCh]. *)
Definition sendValid (desig : string) (obuf : list VObs) : exec (list event) :=
  if (length obuf <? 2)%nat then Ret [] else
  if negb (increasing 0 obuf) then Ret [] else
  match head obuf, last obuf with
  | Some first, Some lst =>
      if Qeq_bool (RA (Meas first)) (RA (Meas lst))
         && Qeq_bool (Dec (Meas first)) (Dec (Meas lst))
      then Ret []
      else Ret [ArcSent (mkArc desig obuf)]
  | _, _ => Panic
  end.

Section Loop.

Variable ocdMap : ParallaxMap.

(** The loop of [Split] followed by the last [sendValid]: the values sent,
    in order.  [close(arcCh)] follows them. *)
Fixpoint loop (cs : list (string * bool)) (final : error) (v : vars)
  : exec (list event) :=
  match cs with
  | [] =>
      sent ← sendValid (des0 v) (obuf v);
      match final with
      | EOF => Ret sent
      | e => Ret (ErrSent e :: sent)
      end
  | (bLine, pre) :: rest =>
      if pre then
        sent ← sendValid (des0 v) (obuf v);
        Ret (LongLineSent :: sent)
      else if negb (len bLine =? 80)%nat then loop rest final v
      else
        c ← index bLine 14;
        if byte_eqb c "s" then
          match o v with
          | Some (VSat s1) =>
              r ← ParseSat2 bLine (desig v) s1;
              let s1' := fst r in
              loop rest final
                   (mkVars (des0 v) (Some (VSat s1')) (desig v)
                           (setLast (obuf v) (VSat s1')))
          | _ => loop rest final v
          end
        else
          r ← ParseObs80 bLine ocdMap;
          match r with
          | Failed desig' _ =>
              sent ← sendValid (des0 v) (obuf v);
              more ← loop rest final (mkVars (des0 v) None desig' []);
              Ret (sent ++ more)
          | Parsed desig' o' =>
              match obuf v with
              | [] => loop rest final (mkVars desig' (Some o') desig' [o'])
              | _ =>
                  if String.eqb desig' (des0 v)
                  then loop rest final
                            (mkVars (des0 v) (Some o') desig' (obuf v ++ [o']))
                  else
                    sent ← sendValid (des0 v) (obuf v);
                    more ← loop rest final (mkVars desig' (Some o') desig' [o']);
                    Ret (sent ++ more)
              end
          end
  end.

Definition Split (iObs : LineReader) : exec (list event) :=
  loop (chunks iObs) (endErr iObs) (mkVars "" None "" []).

End Loop.

(** The times of the observations of an arc. *)
Definition times (a : Arc) : list Q := map (fun ob => MJD (Meas ob)) (Obs a).

(** What [sendValid] asks of an arc: two observations or more, a first time
    above zero and times that increase, and a first and a last position that
    differ. *)
Definition ValidArc (a : Arc) : Prop :=
  (2 <= length (Obs a))%nat
  /\ StronglySorted Qlt (0%Q :: times a)
  /\ exists first lst,
       head (Obs a) = Some first /\ last (Obs a) = Some lst
       /\ ~ ((RA (Meas first) == RA (Meas lst))%Q
             /\ (Dec (Meas first) == Dec (Meas lst))%Q).

End Split.

(** ** ReadObscodeDat *)

Module Obscode.

(** [strings.Split(s, "\n")] *)
Fixpoint splitLines (s : string) : list string :=
  match s with
  | EmptyString => [EmptyString]
  | String c r =>
      if byte_eqb c "010" then EmptyString :: splitLines r
      else match splitLines r with
           | l :: ls => String c l :: ls
           | [] => [String c EmptyString]
           end
  end.

(** "scale factor = earth radius in m / 1 AU in m":
    [const sf = 6.37814e6 / 149.59787e9]. *)
Definition sf : Q := 6378140 # 149597870000.

(** The reader [r]: what [ioutil.ReadAll] returns. *)
Definition Reader : Type := (string * option error)%type.

(** The errors [ReadObscodeDat] returns. *)
Inductive readError : Type :=
| ReadFailed (e : error)
| Unreadable.

Section Read.

(** [unit.AngleFromDeg] of package unit. *)
Variable AngleFromDeg : Q -> Q.

(** The three fields of a line: a blank field is 0; [None] is the
    [continue] on a field that does not parse or is out of range. *)
Definition longitudeOf (ts : string) : option Q :=
  if (len ts =? 0)%nat then Some 0%Q
  else match ParseFloat ts with
       | Some v =>
           if negb (Qle_bool 0 v) || Qle_bool 360 v then None else Some v
       | None => None
       end.

Definition rhoCosPhiOf (ts : string) : option Q :=
  if (len ts =? 0)%nat then Some 0%Q
  else match ParseFloat ts with
       | Some v =>
           if negb (Qle_bool 0 v) || negb (Qle_bool v 1) then None
           else Some (v * sf)%Q
       | None => None
       end.

Definition rhoSinPhiOf (ts : string) : option Q :=
  if (len ts =? 0)%nat then Some 0%Q
  else match ParseFloat ts with
       | Some v =>
           if negb (Qle_bool (-1) v) || negb (Qle_bool v 1) then None
           else Some (v * sf)%Q
       | None => None
       end.

(** The body of the loop over the lines. *)
Definition readLine (ocdMap : ParallaxMap) (line : string) : exec ParallaxMap :=
  if (len line <? 30)%nat then Ret ocdMap else
  f1 ← slice line 4 13;
  match longitudeOf (TrimSpace f1) with
  | None => Ret ocdMap
  | Some longitude =>
      f2 ← slice line 13 21;
      match rhoCosPhiOf (TrimSpace f2) with
      | None => Ret ocdMap
      | Some rhoCosPhi =>
          f3 ← slice line 21 30;
          match rhoSinPhiOf (TrimSpace f3) with
          | None => Ret ocdMap
          | Some rhoSinPhi =>
              code ← slice line 0 3;
              if Qeq_bool rhoCosPhi 0 && Qeq_bool rhoSinPhi 0
              then Ret (<[code := None]> ocdMap)
              else Ret (<[code := Some (mkParallaxConst (AngleFromDeg longitude)
                                                        rhoCosPhi rhoSinPhi)]>
                          ocdMap)
          end
      end
  end.

Fixpoint readLines (ls : list string) (ocdMap : ParallaxMap) : exec ParallaxMap :=
  match ls with
  | [] => Ret ocdMap
  | line :: rest =>
      m ← readLine ocdMap line;
      readLines rest m
  end.

Definition ReadObscodeDat (r : Reader) : exec (ParallaxMap + readError) :=
  match snd r with
  | Some e => Ret (inr (ReadFailed e))
  | None =>
      m ← readLines (splitLines (fst r)) ∅;
      if decide (m = ∅) then Ret (inr Unreadable) else Ret (inl m)
  end.

End Read.

End Obscode.

(** ** The export format: the fields read as bool *)

Module ExportFormat.

Inductive terp : Type :=
| terpString | terpFloat | terpInt | terpBool | terpByte | terpDate.

(** [decodeData]; the field [end] of the source is [stop] here. *)
Record decodeData : Type := mkDD { start : nat; stop : nat; terpOf : terp }.

Definition tFieldList : list (string * decodeData) :=
  [ ("Desig", mkDD 0 7 terpString);
    ("Num", mkDD 0 7 terpInt);
    ("Prov", mkDD 0 7 terpString);
    ("H", mkDD 8 13 terpFloat);
    ("G", mkDD 14 19 terpFloat);
    ("Epoch", mkDD 20 25 terpDate);
    ("MA", mkDD 26 35 terpFloat);
    ("Peri", mkDD 37 46 terpFloat);
    ("Node", mkDD 48 57 terpFloat);
    ("Inc", mkDD 59 68 terpFloat);
    ("E", mkDD 70 79 terpFloat);
    ("M", mkDD 80 91 terpFloat);
    ("A", mkDD 92 103 terpFloat);
    ("U", mkDD 105 106 terpInt);
    ("EAsm", mkDD 105 106 terpBool);
    ("DD", mkDD 105 106 terpBool);
    ("Ref", mkDD 107 116 terpString);
    ("NObs", mkDD 117 122 terpInt);
    ("NOpp", mkDD 123 126 terpInt);
    ("YFirst", mkDD 127 131 terpInt);
    ("YLast", mkDD 132 136 terpInt);
    ("Arc", mkDD 127 131 terpInt);
    ("RMS", mkDD 137 141 terpFloat);
    ("Coarse", mkDD 142 145 terpString);
    ("Precise", mkDD 146 148 terpInt);
    ("Ptb", mkDD 142 149 terpInt);
    ("PlEph", mkDD 148 149 terpByte);
    ("Comp", mkDD 150 160 terpString);
    ("Type", mkDD 163 165 terpInt);
    ("NEO", mkDD 162 163 terpBool);
    ("Km", mkDD 161 162 terpBool);
    ("Seen", mkDD 161 162 terpBool);
    ("Crit", mkDD 161 162 terpBool);
    ("PHA", mkDD 161 162 terpBool);
    ("Designation", mkDD 166 194 terpString);
    ("LastObs", mkDD 194 202 terpDate) ].

Definition tFieldMap : gmap string decodeData := list_to_map tFieldList.

(** The value of a byte, and the wrap-around of uint8. *)
Definition byteVal (c : ascii) : Z := Z.of_nat (nat_of_ascii c).

Definition wrap8 (z : Z) : Z := z mod 2 ^ 8.

(** [b&1<<k != 0] for a byte [b]: the operators [&] and [<<] have the same
    precedence and associate to the left, so the expression is
    [((b & 1) << k) != 0], and the shift is one of a uint8. *)
Definition shiftedBit (b : ascii) (k : Z) : bool :=
  negb (wrap8 (Z.shiftl (Z.land (byteVal b) 1) k) =? 0).

(** [boolFunc]: the closure it returns, as the value the closure stores in
    the field with [fv.SetBool]; the closure panics on a record that ends
    before the byte it reads. *)
Definition boolFunc (dd : decodeData) (tfName : string)
  : exec (string -> exec bool) :=
  if String.eqb tfName "EAsm"
  then Ret (fun data => c ← index data (start dd); Ret (byte_eqb c "E"))
  else if String.eqb tfName "DD"
  then Ret (fun data => c ← index data (start dd); Ret (byte_eqb c "D"))
  else if String.eqb tfName "NEO"
  then Ret (fun data => c ← index data (start dd); Ret (shiftedBit c 11))
  else if String.eqb tfName "Km"
  then Ret (fun data => c ← index data (start dd); Ret (shiftedBit c 12))
  else if String.eqb tfName "Seen"
  then Ret (fun data => c ← index data (start dd); Ret (shiftedBit c 13))
  else if String.eqb tfName "Crit"
  then Ret (fun data => c ← index data (start dd); Ret (shiftedBit c 14))
  else if String.eqb tfName "PHA"
  then Ret (fun data => c ← index data (start dd); Ret (shiftedBit c 15))
  else Panic.

(** The fields read through the expression [b&1<<k]. *)
Definition flagFields : list string := ["NEO"; "Km"; "Seen"; "Crit"; "PHA"].

End ExportFormat.

(** * Properties *)

(** ** Strings *)

Module GoStrFacts.

Lemma length_substring (s : string) :
  forall n m, (n + m <= String.length s)%nat ->
              String.length (String.substring n m s) = m.
Proof.
  induction s as [|c s IH]; intros n m H; simpl in *.
  - destruct n, m; simpl; lia.
  - destruct n as [|n]; simpl.
    + destruct m as [|m]; simpl; [reflexivity|].
      f_equal. apply IH. lia.
    + apply IH. lia.
Qed.

Lemma slice_ret s lo hi :
  (lo <= hi)%nat -> (hi <= len s)%nat ->
  slice s lo hi = Ret (String.substring lo (hi - lo) s).
Proof.
  intros H1 H2. unfold slice.
  apply Nat.leb_le in H1. apply Nat.leb_le in H2.
  rewrite H1, H2. reflexivity.
Qed.


Lemma slice_len s lo hi r : slice s lo hi = Ret r -> len r = (hi - lo)%nat.
Proof.
  unfold slice. destruct (lo <=? hi)%nat eqn:H1; [|discriminate].
  destruct (hi <=? len s)%nat eqn:H2; [|discriminate].
  simpl. intros [= <-].
  apply Nat.leb_le in H1. apply Nat.leb_le in H2.
  apply length_substring. unfold len in H2. lia.
Qed.

Lemma get_lt s : forall i, (i < String.length s)%nat -> exists c, String.get i s = Some c.
Proof.
  induction s as [|c s IH]; intros i H; simpl in *; [lia|].
  destruct i; [eauto|]. apply IH. lia.
Qed.

Lemma index_ret s i : (i < len s)%nat -> exists c, index s i = Ret c.
Proof.
  intros H. unfold index. destruct (get_lt s i H) as [c ->]. eauto.
Qed.

(** A string of decimal digits reads as a number below the matching power
    of ten. *)
Lemma digits_bound s : forall acc v,
    digits s acc = Some v -> 0 <= acc ->
    acc * 10 ^ Z.of_nat (String.length s) <= v
    < (acc + 1) * 10 ^ Z.of_nat (String.length s).
Proof.
  induction s as [|c s IH]; intros acc v H Hacc.
  - simpl in H. injection H as <-. simpl. lia.
  - simpl in H. destruct (digitVal c) as [d|] eqn:Hd; [|discriminate].
    assert (0 <= d <= 9) as Hdr.
    { unfold digitVal in Hd.
      destruct ((48 <=? nat_of_ascii c)%nat && (nat_of_ascii c <=? 57)%nat) eqn:E;
        [|discriminate].
      injection Hd as <-. apply andb_true_iff in E as [E1 E2].
      apply Nat.leb_le in E1. apply Nat.leb_le in E2. lia. }
    apply IH in H; [|lia].
    change (String.length (String c s)) with (S (String.length s)).
    rewrite Nat2Z.inj_succ, Z.pow_succ_r by lia.
    set (p := 10 ^ Z.of_nat (String.length s)) in *.
    assert (0 < p) by (apply Z.pow_pos_nonneg; lia).
    nia.
Qed.

Lemma Atoi_bound s v :
  Atoi s = Some v -> Z.abs v < 10 ^ Z.of_nat (String.length s).
Proof.
  unfold Atoi, splitSign. destruct s as [|c s]; [discriminate|].
  assert (forall b (neg : bool) (n : Z),
             digits b 0 = Some n -> (String.length b <= S (String.length s))%nat ->
             Z.abs (if neg then - n else n)
             < 10 ^ Z.of_nat (S (String.length s))) as Hb.
  { intros b neg n Hn Hl. apply digits_bound in Hn; [|lia].
    assert (10 ^ Z.of_nat (String.length b)
            <= 10 ^ Z.of_nat (S (String.length s)))
      by (apply Z.pow_le_mono_r; lia).
    destruct neg; lia. }
  change (String.length (String c s)) with (S (String.length s)).
  destruct (byte_eqb c "-"); [|destruct (byte_eqb c "+")].
  - destruct s as [|c' s']; [discriminate|].
    destruct (digits (String c' s') 0) as [n|] eqn:Hn; [|discriminate].
    destruct (_ && _); [|discriminate]. intros [= <-].
    apply (Hb _ true n Hn). simpl. lia.
  - destruct s as [|c' s']; [discriminate|].
    destruct (digits (String c' s') 0) as [n|] eqn:Hn; [|discriminate].
    destruct (_ && _); [|discriminate]. intros [= <-].
    apply (Hb _ false n Hn). simpl. lia.
  - destruct (digits (String c s) 0) as [n|] eqn:Hn; [|discriminate].
    destruct (_ && _); [|discriminate]. intros [= <-].
    apply (Hb _ false n Hn). simpl. lia.
Qed.

Lemma wrap_small z : minInt <= z <= maxInt -> wrap z = z.
Proof.
  unfold wrap, minInt, maxInt. intros H.
  rewrite Z.mod_small; lia.
Qed.

End GoStrFacts.

(** ** The date decoder *)

Module Obs80Facts.

Import Obs80 GoStrFacts Samples.

Ltac exec_simpl := unfold mbind, exec_bind, bind in *; simpl in *.

Lemma flookupAt_ret M : 0 <= M <= 12 -> flookupAt M = Ret (tableAt M).
Proof.
  intros H. unfold flookupAt, tableAt.
  assert (M = 0 \/ M = 1 \/ M = 2 \/ M = 3 \/ M = 4 \/ M = 5 \/ M = 6 \/ M = 7
          \/ M = 8 \/ M = 9 \/ M = 10 \/ M = 11 \/ M = 12) as Hc by lia.
  repeat destruct Hc as [-> | Hc]; try subst M; reflexivity.
Qed.

Lemma tableAt_bound M : 0 <= M <= 12 -> 0 <= tableAt M <= 337.
Proof.
  intros H. unfold tableAt.
  assert (M = 0 \/ M = 1 \/ M = 2 \/ M = 3 \/ M = 4 \/ M = 5 \/ M = 6 \/ M = 7
          \/ M = 8 \/ M = 9 \/ M = 10 \/ M = 11 \/ M = 12) as Hc by lia.
  repeat destruct Hc as [-> | Hc]; try subst M; simpl; lia.
Qed.


(** The integer part of the date, free of wrap-around for a four-character
    year and a month of the table. *)
Lemma date_int_nowrap Y M :
  Z.abs Y < 10 ^ 4 -> 0 <= M <= 12 ->
  let z := iadd Y (idiv (isub M 14) 12) in
  z = Y + (M - 14) ÷ 12 /\
  isub (iadd (isub (iadd (iadd (tableAt M) (imul 365 z)) (idiv z 4))
                   (idiv z 100))
             (idiv z 400))
       678882
  = tableAt M + 365 * z + z ÷ 4 - z ÷ 100 + z ÷ 400 - 678882.
Proof.
  intros HY HM. pose proof (tableAt_bound M HM) as HT.
  assert (-1 <= (M - 14) ÷ 12 <= 0) as Hq.
  { assert (M = 0 \/ M = 1 \/ M = 2 \/ M = 3 \/ M = 4 \/ M = 5 \/ M = 6
            \/ M = 7 \/ M = 8 \/ M = 9 \/ M = 10 \/ M = 11 \/ M = 12)
      as Hc by lia.
    repeat destruct Hc as [-> | Hc]; try subst M;
      split; apply Z.leb_le; reflexivity. }
  assert (isub M 14 = M - 14) as E1
      by (unfold isub; apply wrap_small; unfold minInt, maxInt; lia).
  assert (idiv (M - 14) 12 = (M - 14) ÷ 12) as E2
      by (unfold idiv; apply wrap_small; unfold minInt, maxInt; lia).
  assert (iadd Y ((M - 14) ÷ 12) = Y + (M - 14) ÷ 12) as E3
      by (unfold iadd; apply wrap_small; unfold minInt, maxInt; lia).
  cbv zeta. rewrite E1, E2, E3.
  set (z := Y + (M - 14) ÷ 12).
  assert (Z.abs z <= 10 ^ 4) as Hz by (unfold z; lia).
  assert (forall k, 0 < k -> Z.abs (z ÷ k) <= 10 ^ 4) as Hdiv.
  { intros k Hk. pose proof (Z.quot_abs z k ltac:(lia)) as Ha.
    assert (Z.abs z ÷ Z.abs k <= Z.abs z)
      by (apply Z.quot_le_upper_bound; nia).
    lia. }
  pose proof (Hdiv 4 ltac:(lia)). pose proof (Hdiv 100 ltac:(lia)).
  pose proof (Hdiv 400 ltac:(lia)).
  assert (10 ^ 4 = 10000) as E10 by reflexivity. rewrite E10 in *.
  split; [reflexivity|].
  unfold isub, iadd, imul, idiv.
  rewrite (wrap_small (365 * z)) by (unfold minInt, maxInt; lia).
  rewrite (wrap_small (z ÷ 4)) by (unfold minInt, maxInt; lia).
  rewrite (wrap_small (z ÷ 100)) by (unfold minInt, maxInt; lia).
  rewrite (wrap_small (z ÷ 400)) by (unfold minInt, maxInt; lia).
  rewrite (wrap_small (tableAt M + _)) by (unfold minInt, maxInt; lia).
  rewrite (wrap_small (tableAt M + _ + _)) by (unfold minInt, maxInt; lia).
  rewrite (wrap_small (tableAt M + _ + _ - _)) by (unfold minInt, maxInt; lia).
  rewrite (wrap_small (tableAt M + _ + _ - _ + _)) by (unfold minInt, maxInt; lia).
  rewrite (wrap_small (tableAt M + _ + _ - _ + _ - _)) by (unfold minInt, maxInt; lia).
  reflexivity.
Qed.

Lemma date_prefix_ret d ms :
  slice d 5 7 = Ret ms ->
  exists c0 df', index ms 0 = Ret c0 /\
                 (if byte_eqb c0 " " then sliceFrom ms 1 else Ret ms) = Ret df'.
Proof.
  intros H. pose proof (slice_len _ _ _ _ H) as Hl. simpl in Hl.
  destruct (index_ret ms 0) as [c0 Hc]; [lia|].
  exists c0. destruct (byte_eqb c0 " ").
  - unfold sliceFrom. rewrite slice_ret by lia. eauto.
  - eauto.
Qed.

(** C4, amended.  For every date string whose year, month and day fields
    parse to [Y], [M] and [D], with [M] an index of the month table,
    [ParseObs80Date] accepts the date and returns
    [table[M] + 365*z + z/4 - z/100 + z/400 - 678882 + D] for
    [z = Y + (M-14)/12], every quotient truncating toward zero. *)
Theorem date_formula_truncated (d ys ms ds : string) (Y M : Z) (D : Q) :
  (10 <= len d)%nat ->
  sliceTo d 4 = Ret ys -> Atoi ys = Some Y ->
  slice d 5 7 = Ret ms -> Atoi ms = Some M ->
  sliceFrom d 8 = Ret ds -> ParseFloat (TrimSpace ds) = Some D ->
  0 <= M <= 12 ->
  ParseObs80Date d = Ret (truncMJD Y M D, true).
Proof.
  intros Hlen Hys HY Hms HM Hds HD HMr.
  unfold ParseObs80Date.
  destruct (len d <? 10)%nat eqn:E; [apply Nat.ltb_lt in E; lia|].
  destruct (date_prefix_ret d ms Hms) as (c0 & df' & Hc0 & Hdf).
  assert (Z.abs Y < 10 ^ 4) as HYb.
  { pose proof (Atoi_bound _ _ HY) as Hb.
    apply slice_len in Hys. unfold len in Hys. rewrite Hys in Hb. exact Hb. }
  destruct (date_int_nowrap Y M HYb HMr) as [Ez Em].
  unfold mbind, exec_bind, bind.
  rewrite Hys, HY, Hms, Hc0, Hdf, HM, Hds, HD.
  rewrite Ez, (flookupAt_ret M HMr).
  rewrite Ez in Em. rewrite Em.
  reflexivity.
Qed.

Lemma date_formula_truncated_witness :
  ParseObs80Date "2014 09 04.8" = Ret (truncMJD 2014 9 (48 # 10), true).
Proof.
  apply (date_formula_truncated "2014 09 04.8" "2014" "09" "04.8");
    try reflexivity; simpl; lia.
Defined.

(** C4 as worded fails: on "2014 09 04.8" the decoder returns 56904.8, while
    the formula with the mathematical floor gives 56539.8. *)
Lemma date_formula_floor_fails :
  exists mjd, ParseObs80Date "2014 09 04.8" = Ret (mjd, true)
              /\ ~ (mjd == specMJD 2014 9 (48 # 10))%Q.
Proof.
  eexists. split; [vm_compute; reflexivity|].
  intros H. vm_compute in H. discriminate H.
Qed.

(** C5.  [ParseObs80Date("2014 09 04.8")] is 56904.8 with [ok] true. *)
Theorem date_example :
  exists mjd, ParseObs80Date "2014 09 04.8" = Ret (mjd, true)
              /\ (mjd == 569048 # 10)%Q.
Proof.
  eexists. split; [vm_compute; reflexivity|]. reflexivity.
Qed.

(** C6 fails on the code: the month of an 80-character line indexes the
    13-entry table unchecked, and a month of 13 makes [ParseObs80] panic,
    whatever the parallax map. *)
Theorem ParseObs80_month13_panics (ocm : ParallaxMap) :
  len month13 = 80%nat /\ ParseObs80 month13 ocm = Panic.
Proof. split; reflexivity. Qed.




(** C7 as worded fails: with '1' in column 33 the stored X of the test pair
    is the field times [1/149.59787e6], the reciprocal of the AU in km, and
    not the field times Earth-radius/AU. *)
Lemma ParseSat2_scale_not_earth_radius :
  exists s1', ParseSat2 tcSatLine2 "03620" tcSat1 = Ret (s1', None)
              /\ (cX (Offset s1') == - (3443553 # 10000) * sf)%Q
              /\ ~ (cX (Offset s1') == - (3443553 # 10000) * specScale)%Q.
Proof.
  eexists. split; [vm_compute; reflexivity|]. split; [reflexivity|].
  intros H. vm_compute in H. discriminate H.
Qed.

(** C7, amended.  When [ParseSat2] merges a continuation line, the three
    signed fields of columns 35-46, 47-58 and 59-70 are stored as the
    offset vector as they are parsed, unless column 33 is '1', in which
    case each is first multiplied by the fixed factor [1/149.59787e6], the
    reciprocal of one AU in km.  Nothing else of the observation changes. *)
Theorem ParseSat2_offset (line des1 : string) (s1 s1' : SatObs) :
  ParseSat2 line des1 s1 = Ret (s1', None) ->
  exists fx fy fz x y z c,
    slice line 34 46 = Ret fx /\ parseMpcOffset fx = Ret (x, true) /\
    slice line 46 58 = Ret fy /\ parseMpcOffset fy = Ret (y, true) /\
    slice line 58 70 = Ret fz /\ parseMpcOffset fz = Ret (z, true) /\
    index line 32 = Ret c /\
    Offset s1' = (if byte_eqb c "1"
                  then mkCart (x * sf) (y * sf) (z * sf)
                  else mkCart x y z) /\
    satMeas s1' = satMeas s1 /\ Sat s1' = Sat s1.
Proof.
  unfold ParseSat2. unfold mbind, exec_bind, bind.
  destruct (sliceTo line 12) as [f|]; [|discriminate].
  destruct (negb (String.eqb (TrimSpace f) des1)); [discriminate|].
  destruct (slice line 15 32) as [d|]; [|discriminate].
  destruct (ParseObs80Date d) as [[date2 ok]|]; [|discriminate].
  destruct (negb ok); [discriminate|].
  destruct (negb (Qeq_bool date2 (MJD (satMeas s1)))); [discriminate|].
  destruct (slice line 77 80) as [c|]; [|discriminate].
  destruct (negb (String.eqb c (Sat s1))); [discriminate|].
  destruct (slice line 34 46) as [fx|] eqn:Hfx; [|discriminate].
  destruct (parseMpcOffset fx) as [[x okx]|] eqn:Hx; [|discriminate].
  destruct okx; simpl; [|discriminate].
  destruct (slice line 46 58) as [fy|] eqn:Hfy; [|discriminate].
  destruct (parseMpcOffset fy) as [[y oky]|] eqn:Hy; [|discriminate].
  destruct oky; simpl; [|discriminate].
  destruct (slice line 58 70) as [fz|] eqn:Hfz; [|discriminate].
  destruct (parseMpcOffset fz) as [[z okz]|] eqn:Hz; [|discriminate].
  destruct okz; simpl; [|discriminate].
  destruct (index line 32) as [c32|] eqn:Hc; [|discriminate].
  intros [= <-]. exists fx, fy, fz, x, y, z, c32. simpl.
  repeat split; try reflexivity; try assumption.
  destruct (byte_eqb c32 "1"); reflexivity.
Qed.

Lemma ParseSat2_offset_witness :
  exists s1' fx fy fz x y z c,
    ParseSat2 tcSatLine2au "03620" tcSat1 = Ret (s1', None) /\
    slice tcSatLine2au 34 46 = Ret fx /\ parseMpcOffset fx = Ret (x, true) /\
    slice tcSatLine2au 46 58 = Ret fy /\ parseMpcOffset fy = Ret (y, true) /\
    slice tcSatLine2au 58 70 = Ret fz /\ parseMpcOffset fz = Ret (z, true) /\
    index tcSatLine2au 32 = Ret c /\
    Offset s1' = (if byte_eqb c "1"
                  then mkCart (x * sf) (y * sf) (z * sf)
                  else mkCart x y z) /\
    satMeas s1' = satMeas tcSat1 /\ Sat s1' = Sat tcSat1.
Proof.
  assert (exists s1', ParseSat2 tcSatLine2au "03620" tcSat1 = Ret (s1', None))
    as [s1' H] by (eexists; vm_compute; reflexivity).
  destruct (ParseSat2_offset tcSatLine2au "03620" tcSat1 s1' H)
    as (fx & fy & fz & x & y & z & c & Hr).
  exists s1', fx, fy, fz, x, y, z, c. split; [exact H | exact Hr].
Defined.

End Obs80Facts.

(** ** The arc splitter *)

Module ArcFacts.

Import Obs80 Arc GoStrFacts Samples.

Section Facts.

Variable pMap : ParallaxMap.

Lemma setLast_snoc (l : list VObs) x v : setLast (l ++ [x]) v = l ++ [v].
Proof.
  unfold setLast. rewrite rev_app_distr. simpl.
  rewrite rev_involutive. reflexivity.
Qed.

Lemma last_snoc_inv (l : list VObs) x :
  last l = Some x -> exists l', l = l' ++ [x].
Proof. intros H. apply last_Some in H. exact H. Qed.

Lemma snoc_not_nil (l : list VObs) x : l ++ [x] <> [].
Proof. destruct l; discriminate. Qed.

(** The loop consumes a run: after it, the arc under construction holds
    the observations of the run. *)
Lemma arcLoop_run d acc run out :
  Run pMap d acc run out ->
  forall tail rerr a desig o,
    Obs a = acc -> (acc <> [] -> Desig a = d /\ desig = d) -> o = last acc ->
    exists a' desig',
      arcLoop pMap (run ++ tail) rerr a desig o
      = arcLoop pMap tail rerr a' desig' (last out)
      /\ Obs a' = out /\ (out <> [] -> Desig a' = d /\ desig' = d)
      /\ (out = [] -> Desig a' = Desig a).
Proof.
  induction 1 as [acc | acc line ls ob out HG HR IH
                  | acc s1 s1' line ls out Hl Hc HP HR IH];
    intros tail rerr a desig o Ha Hd Ho.
  - exists a, desig. subst. simpl. auto.
  - destruct HG as (Hlen & (c & Hc & Hs) & HP).
    assert (arcLoop pMap ((line :: ls) ++ tail) rerr a desig o
            = arcLoop pMap (ls ++ tail) rerr (mkArc d (acc ++ [ob])) d (Some ob))
      as Estep.
    { simpl. rewrite Hlen. simpl. unfold mbind, exec_bind, bind.
      rewrite Hc, Hs, HP. rewrite Ha.
      destruct acc as [|x acc']; [reflexivity|].
      destruct Hd as [Hd1 Hd2]; [discriminate|].
      rewrite Hd1, String.eqb_refl. reflexivity. }
    rewrite Estep.
    destruct (IH tail rerr (mkArc d (acc ++ [ob])) d (Some ob))
      as (a' & desig' & E & Ho' & Hd' & Hn').
    + reflexivity.
    + intros _. split; reflexivity.
    + rewrite last_snoc. reflexivity.
    + exists a', desig'. split; [exact E|]. split; [exact Ho'|].
      split; [exact Hd'|].
      intros Hout. exfalso.
      clear - HR Hout. remember (acc ++ [ob]) as acc1 eqn:E1.
      assert (acc1 <> []) as Hne by (subst; apply snoc_not_nil).
      clear E1. induction HR; [contradiction| |]; auto using snoc_not_nil.
  - destruct Hc as (c & Hc & Hs).
    destruct (Hd (snoc_not_nil _ _)) as [Hd1 Hd2].
    assert (arcLoop pMap ((line :: ls) ++ tail) rerr a desig o
            = arcLoop pMap (ls ++ tail) rerr (mkArc d (acc ++ [VSat s1'])) d
                      (Some (VSat s1')))
      as Estep.
    { simpl. rewrite Hl. simpl. unfold mbind, exec_bind, bind.
      rewrite Hc, Hs. rewrite Ho, last_snoc. rewrite Hd2, HP.
      rewrite Ha, setLast_snoc, Hd1. reflexivity. }
    rewrite Estep.
    destruct (IH tail rerr (mkArc d (acc ++ [VSat s1'])) d (Some (VSat s1')))
      as (a' & desig' & E & Ho' & Hd' & Hn').
    + reflexivity.
    + intros _. split; reflexivity.
    + rewrite last_snoc. reflexivity.
    + exists a', desig'. split; [exact E|]. split; [exact Ho'|].
      split; [exact Hd'|].
      intros Hout. exfalso.
      clear - HR Hout. remember (acc ++ [VSat s1']) as acc1 eqn:E1.
      assert (acc1 <> []) as Hne by (subst; apply snoc_not_nil).
      clear E1. induction HR; [contradiction| |]; auto using snoc_not_nil.
Qed.

Lemma parseError_arc rest rerr a desig e arc st' :
  parseError rest rerr a desig e = (Some arc, None, st') ->
  arc = a /\ Obs a <> [] /\ lines (s st') = rest /\ o st' = None
  /\ err st' = Some e.
Proof.
  unfold parseError. destruct (Obs a) eqn:E; [discriminate|].
  intros [= <- <-]. simpl. repeat split; congruence.
Qed.

(** Every arc the loop returns is a run, ended in one of the three ways. *)
Lemma arcLoop_arc ls :
  forall rerr a desig o arc st',
    o = last (Obs a) -> (Obs a <> [] -> desig = Desig a) ->
    arcLoop pMap ls rerr a desig o = Ret (Some arc, None, st') ->
    exists run tail,
      ls = run ++ tail
      /\ Run pMap (Desig arc) (Obs a) run (Obs arc)
      /\ Obs arc <> []
      /\ (Obs a <> [] -> Desig arc = Desig a)
      /\ Ending pMap arc rerr tail st'.
Proof.
  induction ls as [|line rest IH]; intros rerr a desig o arc st' Ho Hd H.
  - simpl in H. destruct (scanErr rerr) eqn:Es; [discriminate|].
    destruct (Obs a) eqn:E; [discriminate|].
    injection H as <- <-. exists [], []. rewrite E.
    repeat split; try discriminate.
    + constructor.
    + constructor; auto.
  - simpl in H. destruct (len line =? 80)%nat eqn:Hlen; simpl in H.
    2:{ injection H as H. apply parseError_arc in H as (-> & Hne & Hl & Ho' & He).
        exists [], (line :: rest). repeat split; auto.
        - constructor.
        - eapply end_failure; [ | exact Hl | exact Ho' | exact He ].
          constructor. apply Nat.eqb_neq. exact Hlen. }
    apply Nat.eqb_eq in Hlen.
    unfold mbind, exec_bind, bind in H.
    destruct (index line 14) as [c|] eqn:Hc; [|discriminate].
    destruct (byte_eqb c "s") eqn:Hs.
    + (* a continuation line *)
      assert (forall e, parseError rest rerr a desig e = (Some arc, None, st') ->
                        ParseFails pMap (Desig a) (Obs a) line e ->
                        exists run tail,
                          line :: rest = run ++ tail
                          /\ Run pMap (Desig arc) (Obs a) run (Obs arc)
                          /\ Obs arc <> []
                          /\ (Obs a <> [] -> Desig arc = Desig a)
                          /\ Ending pMap arc rerr tail st') as Hfail.
      { intros e He Hf.
        apply parseError_arc in He as (-> & Hne & Hl & Ho' & He).
        exists [], (line :: rest). repeat split; auto.
        - constructor.
        - eapply end_failure; [ | exact Hl | exact Ho' | exact He ].
          exact Hf. }
      destruct o as [[sv | s1]|].
      * injection H as H. apply (Hfail _ H).
        apply fails_sat2_alone; eauto.
        intros s1. rewrite <- Ho. discriminate.
      * destruct (ParseSat2 line desig s1) as [[s1' [e|]]|] eqn:HP;
          [| |discriminate].
        -- injection H as H. apply (Hfail _ H).
           assert (Obs a <> []) as Hne
               by (intros E; rewrite E in Ho; discriminate).
           rewrite (Hd Hne) in HP.
           eapply fails_sat2; eauto.
        -- symmetry in Ho. destruct (last_snoc_inv _ _ Ho) as [acc0 Eacc].
           assert (desig = Desig a) as Ed
               by (apply Hd; rewrite Eacc; apply snoc_not_nil).
           rewrite Eacc, setLast_snoc in H.
           apply IH in H.
           2:{ simpl. rewrite last_snoc. reflexivity. }
           2:{ intros _. exact Ed. }
           destruct H as (run & tail & -> & HR & Hne & HD & HE).
           simpl in HR, HD.
           specialize (HD (snoc_not_nil _ _)).
           exists (line :: run), tail. split; [reflexivity|].
           split.
           { rewrite Eacc. eapply run_sat2; eauto.
             rewrite HD, <- Ed. exact HP. }
           split; [exact Hne|].
           split; [intros _; exact HD | exact HE].
      * injection H as H. apply (Hfail _ H).
        apply fails_sat2_alone; eauto.
        intros s1. rewrite <- Ho. discriminate.
    + (* a first line *)
      destruct (ParseObs80 line pMap) as [[d' ob | d' e]|] eqn:HP;
        [| |discriminate].
      * destruct (Obs a) as [|x l] eqn:E.
        -- apply IH in H.
           2:{ reflexivity. }
           2:{ reflexivity. }
           destruct H as (run & tail & -> & HR & Hne & HD & HE).
           simpl in HR, HD.
           specialize (HD ltac:(discriminate)).
           exists (line :: run), tail. split; [reflexivity|].
           split.
           { eapply run_obs; [|exact HR].
             rewrite HD. repeat split; eauto. }
           split; [exact Hne|]. split; [intros C; contradiction | exact HE].
        -- destruct (String.eqb d' (Desig a)) eqn:Ed.
           ++ apply String.eqb_eq in Ed. subst d'.
              apply IH in H.
              2:{ simpl. change (x :: l ++ [ob]) with ((x :: l) ++ [ob]).
                  rewrite last_snoc. reflexivity. }
              2:{ reflexivity. }
              destruct H as (run & tail & -> & HR & Hne & HD & HE).
              simpl in HR, HD.
              specialize (HD ltac:(discriminate)).
              exists (line :: run), tail. split; [reflexivity|].
              split.
              { eapply run_obs; [|exact HR].
                rewrite HD. repeat split; eauto. }
              split; [exact Hne|]. split; [intros _; exact HD | exact HE].
           ++ injection H as <- <-.
              exists [], (line :: rest). rewrite E.
              repeat split; try discriminate.
              ** constructor.
              ** eapply end_boundary; try reflexivity.
                 --- repeat split; eauto.
                 --- apply String.eqb_neq. exact Ed.
      * injection H as H.
        apply parseError_arc in H as (-> & Hne & Hl & Ho' & He).
        exists [], (line :: rest). repeat split; auto.
        -- constructor.
        -- eapply end_failure; [ | exact Hl | exact Ho' | exact He ].
           eapply fails_obs; eauto.
Qed.

(** *** End of stream *)

Lemma ParseSat2_err_not_EOF line d s1 s1' e :
  ParseSat2 line d s1 = Ret (s1', Some e) -> e <> EOF.
Proof.
  unfold ParseSat2. unfold mbind, exec_bind, bind.
  repeat match goal with
         | |- context [match ?x with _ => _ end] =>
             match x with
             | context [match _ with _ => _ end] => fail 1
             | _ => destruct x
             end
         end;
    intros H; try discriminate H; injection H as _ <-; discriminate.
Qed.

Lemma scanErr_not_EOF rerr : scanErr rerr <> Some EOF.
Proof. destruct rerr as [[]|]; discriminate. Qed.

Lemma parseError_err rest rerr a desig e r e' st' :
  parseError rest rerr a desig e = (r, e', st') ->
  e <> EOF ->
  e' <> Some EOF /\ err st' <> Some EOF.
Proof.
  unfold parseError. intros H Hne.
  destruct (Obs a); injection H as <- <- <-; simpl; split; congruence.
Qed.

(** What the loop leaves when [io.EOF] is involved: it returns [io.EOF] only
    with no arc and nothing carried, and carries it only at the end of the
    stream. *)
Lemma arcLoop_eof ls :
  forall rerr a desig o r e st',
    o = last (Obs a) ->
    arcLoop pMap ls rerr a desig o = Ret (r, e, st') ->
    (e = Some EOF -> r = None /\ AtEOS st') /\ EOFCarried st'.
Proof.
  induction ls as [|line rest IH]; intros rerr a desig o r e st' Ho H.
  - simpl in H. destruct (scanErr rerr) as [e0|] eqn:Es.
    + injection H as <- <- <-. split.
      * intros [= ->]. exfalso. exact (scanErr_not_EOF _ Es).
      * intros [= ->]. exfalso. exact (scanErr_not_EOF _ Es).
    + destruct (Obs a) eqn:E.
      * injection H as <- <- <-. split.
        -- intros _. split; [reflexivity|]. unfold AtEOS. simpl.
           try rewrite E in Ho. simpl in Ho. auto.
        -- intros C. discriminate C.
      * injection H as <- <- <-. split; [discriminate|].
        intros _. simpl. auto.
  - simpl in H.
    assert (forall e0, Ret (parseError rest rerr a desig e0) = Ret (r, e, st') ->
                       e0 <> EOF ->
                       (e = Some EOF -> r = None /\ AtEOS st') /\ EOFCarried st')
      as Hfail.
    { intros e0 He0 Hne. injection He0 as He0.
      destruct (parseError_err _ _ _ _ _ _ _ _ He0 Hne) as [H1 H2].
      split; [intros C; contradiction | intros C; contradiction]. }
    destruct (negb (len line =? 80)%nat); [apply (Hfail _ H); discriminate|].
    unfold mbind, exec_bind, bind in H.
    destruct (index line 14) as [c|]; [|discriminate].
    destruct (byte_eqb c "s").
    + destruct o as [[sv | s1]|];
        try (apply (Hfail _ H); discriminate).
      destruct (ParseSat2 line desig s1) as [[s1' [e0|]]|] eqn:HP;
        [| |discriminate].
      * apply (Hfail _ H). eapply ParseSat2_err_not_EOF; eauto.
      * symmetry in Ho. destruct (last_snoc_inv _ _ Ho) as [acc0 Eacc].
        rewrite Eacc, setLast_snoc in H.
        eapply IH; [|exact H]. simpl. rewrite last_snoc. reflexivity.
    + destruct (ParseObs80 line pMap) as [[d' ob | d' e0]|]; [| |discriminate].
      * destruct (Obs a) as [|x l] eqn:E.
        -- eapply IH; [|exact H]. reflexivity.
        -- destruct (String.eqb d' (Desig a)).
           ++ eapply IH; [|exact H]. simpl.
              change (x :: l ++ [ob]) with ((x :: l) ++ [ob]).
              rewrite last_snoc. reflexivity.
           ++ injection H as <- <- <-. split; discriminate.
      * injection H as H.
        assert (parseError rest rerr a d' (ArcError e0) = (r, e, st')) as H' by exact H.
        destruct (parseError_err _ _ _ _ _ _ _ _ H' ltac:(discriminate)) as [H1 H2].
        split; intros C; contradiction.
Qed.

Lemma next_eof st r e st' :
  EOFCarried st ->
  next pMap st = Ret (r, e, st') ->
  (e = Some EOF -> r = None /\ AtEOS st') /\ EOFCarried st'.
Proof.
  intros Hinv H. unfold next in H. destruct (err st) as [e0|] eqn:Ee.
  - injection H as <- <- <-. split.
    + intros [= ->]. destruct (Hinv Ee) as (H1 & H2 & H3).
      split; [reflexivity|]. unfold AtEOS. simpl. auto.
    + intros C. discriminate C.
  - eapply arcLoop_eof; [|exact H].
    destruct (o st); reflexivity.
Qed.

Lemma calls_EOFCarried n :
  forall st0 hist st,
    EOFCarried st0 -> calls pMap n st0 = Ret (hist, st) -> EOFCarried st.
Proof.
  induction n as [|n IH]; intros st0 hist st Hinv H.
  - injection H as <- <-. exact Hinv.
  - simpl in H. unfold mbind, exec_bind, bind in H.
    destruct (next pMap st0) as [[[r e] st1]|] eqn:Hn; [|discriminate].
    destruct (calls pMap n st1) as [[h2 st2]|] eqn:Hc; [|discriminate].
    injection H as <- <-. simpl.
    eapply IH; [|exact Hc].
    eapply next_eof; eauto.
Qed.

Lemma AtEOS_next st :
  AtEOS st -> exists st', next pMap st = Ret (None, Some EOF, st') /\ AtEOS st'.
Proof.
  intros (Hl & Hs & Ho & He). unfold next. rewrite He, Ho, Hl. simpl.
  rewrite Hs. simpl. eexists. split; [reflexivity|].
  unfold AtEOS. simpl. auto.
Qed.

Lemma AtEOS_calls k :
  forall st, AtEOS st ->
             exists st', calls pMap k st = Ret (repeat (None, Some EOF) k, st').
Proof.
  induction k as [|k IH]; intros st H.
  - eexists. reflexivity.
  - destruct (AtEOS_next st H) as (st1 & Hn & H1).
    destruct (IH st1 H1) as (st2 & Hc).
    exists st2. simpl. unfold mbind, exec_bind, bind. rewrite Hn, Hc. reflexivity.
Qed.

(** *** Runs, failures and the calls *)




(** The arc under construction as a call enters the loop. *)
Lemma next_enter st :
  err st = None ->
  exists a0,
    next pMap st = arcLoop pMap (lines (s st)) (readErr (s st)) a0 (desig st) (o st)
    /\ Obs a0 = carry st /\ o st = last (carry st)
    /\ (carry st <> [] -> Desig a0 = desig st).
Proof.
  intros He. unfold next, carry. rewrite He.
  destruct (o st); eexists; (split; [reflexivity|]); simpl;
    repeat split; auto; intros C; contradiction.
Qed.

Lemma carry_nonempty st : carry st <> [] -> o st <> None.
Proof. unfold carry. destruct (o st); [discriminate|contradiction]. Qed.


End Facts.





(** C2.  End-of-stream is idempotent: once a call on a splitter made by
    [ArcSplitter] has returned [io.EOF], it returned no arc, and every later
    call returns [io.EOF] with no arc again. *)
Theorem eof_idempotent (pMap : ParallaxMap) (rObs : Scanner) (n : nat)
        (hist : list (option Arc * option error)) (st st' : splitter)
        (r : option Arc) :
  calls pMap n (ArcSplitter rObs) = Ret (hist, st) ->
  next pMap st = Ret (r, Some EOF, st') ->
  r = None
  /\ forall k, exists st'',
        calls pMap k st' = Ret (repeat (None, Some EOF) k, st'').
Proof.
  intros Hc Hn.
  assert (EOFCarried st) as Hinv.
  { eapply calls_EOFCarried; [|exact Hc]. intros C. discriminate C. }
  destruct (next_eof pMap st r (Some EOF) st' Hinv Hn) as [H1 _].
  destruct (H1 eq_refl) as [Hr Hs].
  split; [exact Hr|]. intros k. apply AtEOS_calls. exact Hs.
Qed.

Lemma eof_idempotent_witness :
  exists st',
    @None Arc = None
    /\ forall k, exists st'',
          calls sampleMap k st' = Ret (repeat (None, Some EOF) k, st'').
Proof.
  eexists.
  eapply (eof_idempotent sampleMap (mkScanner [o1Line] None) 1).
  - vm_compute. reflexivity.
  - vm_compute. reflexivity.
Defined.

End ArcFacts.

(** ** The tracklet clusterer *)

Module TrackletFacts.

Import Tracklet TrackletSamples.

Lemma Qltb_lt x y : Qltb x y = true <-> (x < y)%Q.
Proof.
  unfold Qltb. rewrite negb_true_iff. split.
  - intros H. apply Qnot_le_lt. intros C. apply Qle_bool_iff in C. congruence.
  - intros H. destruct (Qle_bool y x) eqn:E; [|reflexivity].
    apply Qle_bool_iff in E. exfalso. exact (Qlt_not_le _ _ H E).
Qed.

Lemma Qltb_nlt x y : Qltb x y = false <-> ~ (x < y)%Q.
Proof.
  rewrite <- Qltb_lt. destruct (Qltb x y); split; intros H; congruence.
Qed.

Lemma Qltb_self_span x : Qltb (x - x) (42 # 1000) = true.
Proof.
  apply Qltb_lt. assert (x - x == 0)%Q as E by ring. rewrite E. reflexivity.
Qed.

Lemma gapLoop_range rest :
  forall s next longest split,
    (1 <= split < s)%nat ->
    (1 <= gapLoop s rest next longest split < s + length rest)%nat.
Proof.
  induction rest as [|x r IH]; intros s next longest split H; simpl.
  - lia.
  - destruct (Qltb longest (mjd x - next)).
    + specialize (IH (S s) (mjd x) (mjd x - next)%Q s). lia.
    + specialize (IH (S s) (mjd x) longest split). lia.
Qed.

Lemma reduce_unfold fuel set :
  reduce (S fuel) set =
  match last set, head set with
  | Some hi, Some lo =>
      let d := (mjd hi - mjd lo)%Q in
      if Qltb d (42 # 1000)%Q then Some (Ret [appendTl set])
      else if (length set <=? 5)%nat && Qltb d (125 # 1000)%Q
      then Some (Ret [appendTl set])
      else if (length set =? 2)%nat then
        if Qltb d (1 # 2)%Q then Some (Ret [appendTl set])
        else Some (Ret [appendTl (take 1 set); appendTl (drop 1 set)])
      else
        match set with
        | s0 :: s1 :: rest =>
            let split := gapLoop 2 rest (mjd s1) (mjd s1 - mjd s0)%Q 1 in
            let lf := take split set in
            let rt := drop split set in
            if (3 <=? length lf)%nat && (3 <=? length rt)%nat
            then andThen (reduce fuel lf) (reduce fuel rt)
            else if sameNightPair lf && (2 <=? length rt)%nat
            then andThen (Some (Ret [appendTl lf])) (reduce fuel rt)
            else if sameNightPair rt && (2 <=? length lf)%nat
            then andThen (reduce fuel lf) (Some (Ret [appendTl rt]))
            else if (length set =? 3)%nat && Qltb d (1 # 2)%Q
            then Some (Ret [appendTl set])
            else if Qltb d (1 # 4)%Q then Some (Ret [appendTl set])
            else andThen (reduce fuel lf) (reduce fuel rt)
        | _ => Some Panic
        end
  | _, _ => Some Panic
  end.
Proof. reflexivity. Qed.

Lemma reduce_single fuel x :
  reduce (S fuel) [x] = Some (Ret [appendTl [x]]).
Proof. rewrite reduce_unfold. simpl. rewrite Qltb_self_span. reflexivity. Qed.

Lemma reduce_unfold2 fuel s0 s1 rest :
  reduce (S fuel) (s0 :: s1 :: rest) =
  match last (s0 :: s1 :: rest) with
  | Some hi =>
      if Qltb (mjd hi - mjd s0) (42 # 1000)%Q
      then Some (Ret [appendTl (s0 :: s1 :: rest)])
      else if (length (s0 :: s1 :: rest) <=? 5)%nat
              && Qltb (mjd hi - mjd s0) (125 # 1000)%Q
      then Some (Ret [appendTl (s0 :: s1 :: rest)])
      else if (length (s0 :: s1 :: rest) =? 2)%nat then
        if Qltb (mjd hi - mjd s0) (1 # 2)%Q
        then Some (Ret [appendTl (s0 :: s1 :: rest)])
        else Some (Ret [appendTl (take 1 (s0 :: s1 :: rest));
                        appendTl (drop 1 (s0 :: s1 :: rest))])
      else
        if (3 <=? length (take (gapLoop 2 rest (mjd s1) (mjd s1 - mjd s0)%Q 1)
                               (s0 :: s1 :: rest)))%nat
           && (3 <=? length (drop (gapLoop 2 rest (mjd s1) (mjd s1 - mjd s0)%Q 1)
                                  (s0 :: s1 :: rest)))%nat
        then andThen
               (reduce fuel (take (gapLoop 2 rest (mjd s1) (mjd s1 - mjd s0)%Q 1)
                                  (s0 :: s1 :: rest)))
               (reduce fuel (drop (gapLoop 2 rest (mjd s1) (mjd s1 - mjd s0)%Q 1)
                                  (s0 :: s1 :: rest)))
        else if sameNightPair
                  (take (gapLoop 2 rest (mjd s1) (mjd s1 - mjd s0)%Q 1)
                        (s0 :: s1 :: rest))
                && (2 <=? length (drop (gapLoop 2 rest (mjd s1) (mjd s1 - mjd s0)%Q 1)
                                       (s0 :: s1 :: rest)))%nat
        then andThen
               (Some (Ret [appendTl
                             (take (gapLoop 2 rest (mjd s1) (mjd s1 - mjd s0)%Q 1)
                                   (s0 :: s1 :: rest))]))
               (reduce fuel (drop (gapLoop 2 rest (mjd s1) (mjd s1 - mjd s0)%Q 1)
                                  (s0 :: s1 :: rest)))
        else if sameNightPair
                  (drop (gapLoop 2 rest (mjd s1) (mjd s1 - mjd s0)%Q 1)
                        (s0 :: s1 :: rest))
                && (2 <=? length (take (gapLoop 2 rest (mjd s1) (mjd s1 - mjd s0)%Q 1)
                                       (s0 :: s1 :: rest)))%nat
        then andThen
               (reduce fuel (take (gapLoop 2 rest (mjd s1) (mjd s1 - mjd s0)%Q 1)
                                  (s0 :: s1 :: rest)))
               (Some (Ret [appendTl
                             (drop (gapLoop 2 rest (mjd s1) (mjd s1 - mjd s0)%Q 1)
                                   (s0 :: s1 :: rest))]))
        else if (length (s0 :: s1 :: rest) =? 3)%nat
                && Qltb (mjd hi - mjd s0) (1 # 2)%Q
        then Some (Ret [appendTl (s0 :: s1 :: rest)])
        else if Qltb (mjd hi - mjd s0) (1 # 4)%Q
        then Some (Ret [appendTl (s0 :: s1 :: rest)])
        else andThen
               (reduce fuel (take (gapLoop 2 rest (mjd s1) (mjd s1 - mjd s0)%Q 1)
                                  (s0 :: s1 :: rest)))
               (reduce fuel (drop (gapLoop 2 rest (mjd s1) (mjd s1 - mjd s0)%Q 1)
                                  (s0 :: s1 :: rest)))
  | None => Some Panic
  end.
Proof.
  rewrite reduce_unfold.
  destruct (last (s0 :: s1 :: rest)); reflexivity.
Qed.

Lemma last_nonempty {A} (l : list A) : l <> [] -> exists x, last l = Some x.
Proof.
  intros H. destruct (last l) eqn:E; [eauto|].
  apply last_None in E. contradiction.
Qed.

(** [reduce] returns, with the length of the slice as fuel, on every
    non-empty slice. *)
Lemma reduce_total fuel :
  forall set, set <> [] -> (length set <= fuel)%nat ->
              exists r, reduce fuel set = Some (Ret r).
Proof.
  induction fuel as [|fuel IH]; intros set Hne Hlen.
  - destruct set; [contradiction | simpl in Hlen; lia].
  - rewrite reduce_unfold.
    destruct (last_nonempty set Hne) as [hi Hhi]. rewrite Hhi.
    destruct set as [|s0 tl]; [contradiction|].
    change (head (s0 :: tl)) with (Some s0). cbv zeta.
    destruct tl as [|s1 rest].
    { simpl in Hhi. injection Hhi as <-. rewrite Qltb_self_span. eauto. }
    destruct (Qltb (mjd hi - mjd s0) (42 # 1000)); [eauto|].
    destruct (_ && Qltb (mjd hi - mjd s0) (125 # 1000)); [eauto|].
    destruct (length (s0 :: s1 :: rest) =? 2)%nat.
    { destruct (Qltb (mjd hi - mjd s0) (1 # 2)); eauto. }
    set (split := gapLoop 2 rest (mjd s1) (mjd s1 - mjd s0)%Q 1).
    assert (1 <= split < 2 + length rest)%nat as Hs
        by (apply gapLoop_range; lia).
    set (lf := take split (s0 :: s1 :: rest)).
    set (rt := drop split (s0 :: s1 :: rest)).
    assert (length lf = split) as Elf
        by (unfold lf; rewrite length_take; simpl; lia).
    assert (length rt = (2 + length rest - split)%nat) as Ert
        by (unfold rt; rewrite length_drop; simpl; lia).
    simpl in Hlen.
    destruct (IH lf) as [r1 E1];
      [intros C; rewrite C in Elf; simpl in Elf; lia | lia |].
    destruct (IH rt) as [r2 E2];
      [intros C; rewrite C in Ert; simpl in Ert; lia | lia |].
    rewrite E1, E2. simpl.
    repeat match goal with
           | |- context [if ?c then _ else _] => destruct c
           end; eauto.
Qed.

Lemma reduced_ret set :
  set <> [] -> reduce (length set) set = Some (Ret (reduced set)).
Proof.
  intros H. destruct (reduce_total (length set) set H (le_n _)) as [r E].
  unfold reduced. rewrite E. reflexivity.
Qed.

(** *** The first loop *)

Lemma collect_default ts :
  forall i (m : gmap string (list td)) k,
    default [] (collect i ts m !! k) = default [] (m !! k) ++ group k i ts.
Proof.
  induction ts as [|t r IH]; intros i m k; simpl.
  - rewrite app_nil_r. reflexivity.
  - rewrite IH. destruct (String.eqb (tsObserver t) k) eqn:E.
    + apply String.eqb_eq in E. subst k.
      rewrite lookup_insert_eq. simpl. rewrite <- app_assoc. reflexivity.
    + apply String.eqb_neq in E.
      rewrite lookup_insert_ne by exact E. reflexivity.
Qed.

Lemma collect_is_Some ts :
  forall i (m : gmap string (list td)) k,
    is_Some (collect i ts m !! k) <-> is_Some (m !! k) \/ group k i ts <> [].
Proof.
  induction ts as [|t r IH]; intros i m k; simpl.
  - split; [auto | intros [H | H]; [exact H | contradiction]].
  - rewrite IH. destruct (String.eqb (tsObserver t) k) eqn:E.
    + apply String.eqb_eq in E. subst k.
      rewrite lookup_insert_eq. split; intros _.
      * right. discriminate.
      * left. eauto.
    + apply String.eqb_neq in E.
      rewrite lookup_insert_ne by exact E. reflexivity.
Qed.

Lemma collect_group ts k :
  default [] (collect 0 ts ∅ !! k) = group k 0 ts.
Proof. rewrite collect_default, lookup_empty. reflexivity. Qed.

Lemma rangeOrder_group ts keys k :
  rangeOrder (collect 0 ts ∅) keys -> In k keys -> group k 0 ts <> [].
Proof.
  intros [_ H] Hk. apply H in Hk. apply collect_is_Some in Hk.
  destruct Hk as [Hk | Hk]; [|exact Hk].
  rewrite lookup_empty in Hk. destruct Hk as [x Hx]. discriminate Hx.
Qed.

Lemma group_nonempty ts :
  forall k i, group k i ts <> [] <-> In k (map tsObserver ts).
Proof.
  induction ts as [|t r IH]; intros k i; simpl.
  - split; [intros H; contradiction | intros []].
  - destruct (String.eqb_spec (tsObserver t) k) as [E | E].
    + split; [intros _; left; exact E | intros _; discriminate].
    + rewrite IH. split; [intros H; right; exact H|].
      intros [H | H]; [contradiction | exact H].
Qed.

Lemma rangeOrder_iff ts keys :
  rangeOrder (collect 0 ts ∅) keys
  <-> NoDup keys /\ forall k, In k keys <-> In k (map tsObserver ts).
Proof.
  unfold rangeOrder.
  assert (forall k, is_Some (collect 0 ts ∅ !! k) <-> In k (map tsObserver ts))
    as H.
  { intros k. rewrite collect_is_Some, group_nonempty, lookup_empty.
    split; [intros [[x Hx] | Hk]; [discriminate Hx | exact Hk] | auto]. }
  split; intros [Hn Hk]; (split; [exact Hn|]); intros k;
    rewrite (Hk k), (H k); reflexivity.
Qed.

(** Every arrangement of the observers is an order of the range. *)
Lemma rangeOrder_observers ts keys :
  Permutation keys (observers ts) -> rangeOrder (collect 0 ts ∅) keys.
Proof.
  intros P. apply rangeOrder_iff. split.
  - rewrite P. apply NoDup_remove_dups.
  - intros k. rewrite <- !list_elem_of_In, P. unfold observers.
    apply elem_of_remove_dups.
Qed.

Section Sorted.

Variable gosort : forall A : Type, (A -> A -> bool) -> list A -> list A.

Hypothesis gosort_perm :
  forall (A : Type) (less : A -> A -> bool) (l : list A),
    Permutation (gosort A less l) l.

Lemma gosort_nonempty {A} (less : A -> A -> bool) l :
  l <> [] -> gosort A less l <> [].
Proof.
  intros H C. pose proof (gosort_perm A less l) as P. rewrite C in P.
  apply Permutation_nil in P. contradiction.
Qed.

(** The second loop returns, whatever the order of the range: every slice
    of the map is non-empty. *)
Lemma reduceAll_ret keys (m : gmap string (list td)) :
  (forall k, In k keys -> default [] (m !! k) <> []) ->
  reduceAll gosort keys m
  = Some (Ret (flat_map
                 (fun k => reduced (gosort td datedLess (default [] (m !! k))))
                 keys)).
Proof.
  induction keys as [|k ks IH]; intros H; simpl; [reflexivity|].
  rewrite reduced_ret by (apply gosort_nonempty; apply H; left; reflexivity).
  rewrite IH by (intros k' Hk'; apply H; right; exact Hk').
  reflexivity.
Qed.

Lemma FindTrackletsIndex_ret keys ts :
  rangeOrder (collect 0 ts ∅) keys ->
  FindTrackletsIndex gosort keys ts
  = Some (Ret (map tkIndex
                   (gosort tk tkLess
                           (flat_map
                              (fun k => reduced (gosort td datedLess (group k 0 ts)))
                              keys)))).
Proof.
  intros Hr. unfold FindTrackletsIndex.
  rewrite reduceAll_ret.
  - f_equal. f_equal. f_equal. f_equal.
    apply flat_map_ext. intros k. rewrite collect_group. reflexivity.
  - intros k Hk. rewrite collect_group. eapply rangeOrder_group; eauto.
Qed.

End Sorted.

(** *** Sorting *)

Section InsertionSort.

Context {A : Type} (key : A -> Q).

Local Abbreviation less := (lessBy key).

Lemma insertLeft_perm x p : Permutation (insertLeft less x p) (x :: p).
Proof.
  induction p as [|y p IH]; simpl; [reflexivity|].
  destruct (less x y); [|reflexivity].
  rewrite IH. apply perm_swap.
Qed.

Lemma insertLeft_desc x p :
  StronglySorted (fun a b => key b <= key a)%Q p ->
  StronglySorted (fun a b => key b <= key a)%Q (insertLeft less x p).
Proof.
  induction 1 as [|y p Hs IH Hall]; simpl.
  - constructor; constructor.
  - unfold lessBy at 1. destruct (Qltb (key x) (key y)) eqn:E.
    + constructor; [exact IH|].
      apply List.Forall_forall. intros z Hz.
      apply (Permutation_in _ (insertLeft_perm x p)) in Hz.
      destruct Hz as [<- | Hz].
      * apply Qltb_lt in E. apply Qlt_le_weak. exact E.
      * rewrite List.Forall_forall in Hall. apply Hall. exact Hz.
    + apply Qltb_nlt in E. apply Qnot_lt_le in E.
      constructor; [constructor; assumption|].
      constructor; [exact E|].
      apply List.Forall_forall. intros z Hz. rewrite List.Forall_forall in Hall.
      apply Qle_trans with (key y); [apply Hall; exact Hz | exact E].
Qed.

Lemma insertFold_perm l :
  forall acc,
    Permutation (fold_left (fun p x => insertLeft less x p) l acc) (l ++ acc).
Proof.
  induction l as [|x l IH]; intros acc; simpl; [reflexivity|].
  rewrite IH, insertLeft_perm. symmetry. apply Permutation_middle.
Qed.

Lemma insertFold_desc l :
  forall acc,
    StronglySorted (fun a b => key b <= key a)%Q acc ->
    StronglySorted (fun a b => key b <= key a)%Q
                   (fold_left (fun p x => insertLeft less x p) l acc).
Proof.
  induction l as [|x l IH]; intros acc H; simpl; [exact H|].
  apply IH. apply insertLeft_desc. exact H.
Qed.

Lemma sorted_rev (l : list A) :
  StronglySorted (fun a b => key b <= key a)%Q l ->
  StronglySorted (fun a b => key a <= key b)%Q (rev l).
Proof.
  induction 1 as [|y p Hs IH Hall]; simpl; [constructor|].
  assert (forall q, StronglySorted (fun a b => key a <= key b)%Q q ->
                    Forall (fun z => key z <= key y)%Q q ->
                    StronglySorted (fun a b => key a <= key b)%Q (q ++ [y]))
    as Hsnoc.
  { induction 1 as [|z q Hq IHq Hz]; intros Hf; simpl.
    - constructor; constructor.
    - inversion Hf as [|? ? Hzy Hf']; subst.
      constructor; [apply IHq; exact Hf'|].
      apply Forall_app. split; [exact Hz|]. constructor; [exact Hzy|constructor]. }
  apply Hsnoc; [exact IH|].
  apply List.Forall_forall. intros z Hz. apply in_rev in Hz.
  rewrite List.Forall_forall in Hall. apply Hall. exact Hz.
Qed.

Lemma insertionSort_perm_key l : Permutation (insertionSort less l) l.
Proof.
  unfold insertionSort. rewrite <- Permutation_rev, insertFold_perm.
  rewrite app_nil_r. reflexivity.
Qed.

Lemma insertionSort_sorted l :
  StronglySorted (fun a b => key a <= key b)%Q (insertionSort less l).
Proof.
  unfold insertionSort. apply sorted_rev. apply insertFold_desc. constructor.
Qed.


End InsertionSort.

Lemma insertionSort_perm (A : Type) (less : A -> A -> bool) (l : list A) :
  Permutation (insertionSort less l) l.
Proof.
  unfold insertionSort. rewrite <- Permutation_rev.
  assert (forall l acc,
             Permutation (fold_left (fun p x => insertLeft less x p) l acc)
                         (l ++ acc)) as H.
  { clear l. induction l as [|x l IH]; intros acc; simpl; [reflexivity|].
    rewrite IH.
    transitivity (l ++ x :: acc); [|symmetry; apply Permutation_middle].
    apply Permutation_app_head.
    clear. induction acc as [|y p IHp]; simpl; [reflexivity|].
    destruct (less x y); [|reflexivity].
    rewrite IHp. apply perm_swap. }
  rewrite H, app_nil_r. reflexivity.
Qed.

(** *** Renaming the indices *)

Section Relabel.

Variable f : nat -> nat.











End Relabel.



(** *** Permuting the input *)






Lemma group_In ts :
  forall k i d,
    In d (group k i ts) ->
    exists t, nth_error ts (index d - i) = Some t /\ (i <= index d)%nat
              /\ tsObserver t = k /\ mjd d = tsMJD t.
Proof.
  induction ts as [|t r IH]; intros k i d H; simpl in H; [contradiction|].
  assert (In d (group k (S i) r) ->
          exists t0, nth_error (t :: r) (index d - i) = Some t0
                     /\ (i <= index d)%nat /\ tsObserver t0 = k
                     /\ mjd d = tsMJD t0) as Hrest.
  { intros Hd. destruct (IH k (S i) d Hd) as (t0 & Hn & Hi & Ho & Hm).
    exists t0. replace (index d - i)%nat with (S (index d - S i)) by lia.
    simpl. repeat split; auto. lia. }
  destruct (String.eqb_spec (tsObserver t) k) as [E | E]; [|auto].
  destruct H as [<- | H]; [|auto].
  exists t. simpl. rewrite Nat.sub_diag. simpl. auto.
Qed.











End TrackletFacts.

(** ** More on the line decoder *)

Module Obs80More.

Import Obs80 GoStrFacts Obs80Facts Samples.

Lemma slice80 line lo hi :
  len line = 80%nat -> (lo <= hi)%nat -> (hi <= 80)%nat ->
  slice line lo hi = Ret (String.substring lo (hi - lo) line).
Proof. intros H H1 H2. apply slice_ret; [exact H1 | rewrite H; exact H2]. Qed.

Lemma index_get s i : index s i = match String.get i s with
                                  | Some c => Ret c
                                  | None => Panic
                                  end.
Proof. reflexivity. Qed.

Lemma get80 line i :
  len line = 80%nat -> (i < 80)%nat -> exists c, String.get i line = Some c.
Proof. intros H Hi. apply get_lt. unfold len in H. rewrite H. exact Hi. Qed.



(** [ParseObs80] on an 80-character line, with the slices resolved. *)
Lemma ParseObs80_80 line ocm :
  len line = 80%nat ->
  exists decg band c14,
    String.get 44 line = Some decg /\ String.get 70 line = Some band
    /\ String.get 14 line = Some c14
    /\ ParseObs80 line ocm =
       let desig := TrimSpace (String.substring 0 12 line) in
       let d := String.substring 15 17 line in
       match ParseObs80Date d with
       | Panic => Panic
       | Ret (_, false) => Ret (Failed desig (ErrObs80Date d))
       | Ret (mjd, true) =>
           match Atoi (TrimSpace (String.substring 32 2 line)),
                 Atoi (TrimSpace (String.substring 35 2 line)),
                 ParseFloat (TrimSpace (String.substring 38 6 line)) with
           | Some rah, Some ram, Some ras =>
               match Atoi (TrimSpace (String.substring 45 2 line)),
                     Atoi (TrimSpace (String.substring 48 2 line)),
                     ParseFloat (TrimSpace (String.substring 51 5 line)) with
               | Some decd, Some decm, Some decs =>
                   let ts := TrimSpace (String.substring 65 5 line) in
                   let magr : option Q :=
                     if (len ts =? 0)%nat then Some 0%Q
                     else match ParseFloat ts with
                          | None => None
                          | Some mag =>
                              if byte_eqb band "V" then Some mag
                              else if byte_eqb band "B" then Some (mag - (8 # 10))%Q
                              else Some (mag + (4 # 10))%Q
                          end in
                   match magr with
                   | None => Ret (Failed desig (ErrObs80Mag ts))
                   | Some mag =>
                       let c := String.substring 77 3 line in
                       match ocm !! c with
                       | None => Ret (Failed "" (ErrObs80Obscode c))
                       | Some par =>
                           let dec0 :=
                             (sexagesimal decd decm decs * Pi
                              / inject_Z (180 * 3600))%Q in
                           let m :=
                             {| MJD := mjd;
                                RA := (sexagesimal rah ram ras * Pi
                                       / inject_Z (12 * 3600))%Q;
                                Dec := if byte_eqb decg "-" then (- dec0)%Q else dec0;
                                VMag := mag;
                                Qual := c |} in
                           Ret (Parsed desig
                                  match par with
                                  | Some p =>
                                      if byte_eqb c14 "S"
                                      then VSat {| satMeas := m; Sat := c;
                                                   Offset := mkCart 0 0 0 |}
                                      else VSite {| siteMeas := m; Par := p |}
                                  | None => VSat {| satMeas := m; Sat := c;
                                                    Offset := mkCart 0 0 0 |}
                                  end)
                       end
                   end
               | _, _, _ => Ret (Failed desig (ErrObs80Dec (String.substring 44 12 line)))
               end
           | _, _, _ => Ret (Failed desig (ErrObs80RA (String.substring 32 12 line)))
           end
       end.
Proof.
  intros H.
  destruct (get80 line 44 H ltac:(lia)) as [decg Hg].
  destruct (get80 line 70 H ltac:(lia)) as [band Hb].
  destruct (get80 line 14 H ltac:(lia)) as [c14 Hc].
  exists decg, band, c14. repeat (split; [assumption|]).
  unfold ParseObs80. rewrite H. simpl negb. cbv iota.
  unfold sliceTo, mbind, exec_bind, bind.
  rewrite !index_get, Hg, Hb, Hc.
  rewrite !(slice80 line) by (assumption || lia).
  simpl Nat.sub.
  destruct (ParseObs80Date _) as [[mjd [|]]|]; reflexivity.
Qed.

Ltac open_obs80 H :=
  cbv zeta in H;
  repeat match type of H with
         | context [match ParseObs80Date ?x with _ => _ end] =>
             destruct (ParseObs80Date x) as [[? [|]]|] eqn:?
         | context [match Atoi ?x with _ => _ end] => destruct (Atoi x) eqn:?
         | context [match ParseFloat ?x with _ => _ end] =>
             destruct (ParseFloat x) eqn:?
         | context [if (len ?t =? 0)%nat then _ else _] =>
             destruct (len t =? 0)%nat eqn:?
         | context [if byte_eqb ?a ?b then _ else _] =>
             destruct (byte_eqb a b) eqn:?
         | context [match ?m !! ?k with _ => _ end] =>
             destruct (m !! k) as [[?|]|] eqn:?
         end.

Lemma ParseObs80_not80 line ocm :
  len line <> 80%nat -> ParseObs80 line ocm = Ret (Failed "" ErrObs80Length).
Proof.
  intros H. unfold ParseObs80. apply Nat.eqb_neq in H. rewrite H. reflexivity.
Qed.

(** X2.  The only panic of [ParseObs80] is the one of the date decoder: the
    decoder panics exactly on an 80-character line whose date field (columns
    16-32) makes [ParseObs80Date] panic, and returns an observation or an
    error on every other line, of any length and for any map. *)
Theorem ParseObs80_panics_iff (line : string) (ocm : ParallaxMap) :
  ParseObs80 line ocm = Panic <->
  len line = 80%nat /\ ParseObs80Date (String.substring 15 17 line) = Panic.
Proof.
  destruct (Nat.eq_dec (len line) 80%nat) as [H | H].
  - destruct (ParseObs80_80 line ocm H) as (decg & band & c14 & _ & _ & _ & E).
    rewrite E. split.
    + intros Hp. split; [exact H|]. open_obs80 Hp; try discriminate Hp.
      reflexivity.
    + intros [_ Hp]. cbv zeta. rewrite Hp. reflexivity.
  - rewrite (ParseObs80_not80 line ocm H). split; [discriminate|].
    intros [C _]. contradiction.
Qed.



(** X4.  Which kind of observation a decoded line gives: a satellite observation,
    with the site code and a zero offset, exactly when the map holds nil for
    the code or column 15 is 'S'; otherwise a site observation with the
    constants the map holds for the code. *)
Theorem ParseObs80_kind (line : string) (ocm : ParallaxMap)
        (desig : string) (o : VObs) :
  ParseObs80 line ocm = Ret (Parsed desig o) ->
  match o with
  | VSat s1 =>
      (ocm !! String.substring 77 3 line = Some None
       \/ String.get 14 line = Some "S"%char)
      /\ Sat s1 = String.substring 77 3 line
      /\ Offset s1 = mkCart 0 0 0
  | VSite s1 =>
      ocm !! String.substring 77 3 line = Some (Some (Par s1))
      /\ String.get 14 line <> Some "S"%char
  end.
Proof.
  intros Hp.
  destruct (Nat.eq_dec (len line) 80%nat) as [H | H];
    [|rewrite (ParseObs80_not80 line ocm H) in Hp; discriminate Hp].
  destruct (ParseObs80_80 line ocm H) as (decg & band & c14 & _ & _ & Hc & E).
  rewrite E in Hp. clear E. rewrite Hc.
  open_obs80 Hp; try discriminate Hp;
    injection Hp as <- <-; simpl; repeat split; auto;
    match goal with
    | Hs : byte_eqb c14 "S" = true |- _ =>
        apply Ascii.eqb_eq in Hs; subst c14; right; reflexivity
    | Hs : byte_eqb c14 "S" = false |- _ =>
        apply Ascii.eqb_neq in Hs; congruence
    end.
Qed.

Lemma ParseObs80_kind_witness :
  exists desig s1,
    ParseObs80 tcSatLine1 sampleMap = Ret (Parsed desig (VSat s1))
    /\ (sampleMap !! String.substring 77 3 tcSatLine1 = Some None
        \/ String.get 14 tcSatLine1 = Some "S"%char)
    /\ Sat s1 = String.substring 77 3 tcSatLine1
    /\ Offset s1 = mkCart 0 0 0.
Proof.
  assert (exists desig s1,
             ParseObs80 tcSatLine1 sampleMap = Ret (Parsed desig (VSat s1)))
    as (desig & s1 & H) by (eexists; eexists; vm_compute; reflexivity).
  exists desig, s1. split; [exact H|].
  exact (ParseObs80_kind tcSatLine1 sampleMap desig (VSat s1) H).
Defined.

(** X5.  The magnitude of a decoded line: 0 when columns 66-70 are blank, whatever
    the band; otherwise the number of the field, as it is for band 'V',
    less 0.8 for band 'B', plus 0.4 for any other band character. *)
Theorem ParseObs80_magnitude (line : string) (ocm : ParallaxMap)
        (desig : string) (o : VObs) :
  ParseObs80 line ocm = Ret (Parsed desig o) ->
  let ts := TrimSpace (String.substring 65 5 line) in
  (ts = "" -> VMag (Meas o) = 0%Q)
  /\ (ts <> "" ->
      exists mag band,
        ParseFloat ts = Some mag /\ String.get 70 line = Some band
        /\ VMag (Meas o)
           = if byte_eqb band "V" then mag
             else if byte_eqb band "B" then (mag - (8 # 10))%Q
                  else (mag + (4 # 10))%Q).
Proof.
  intros Hp ts.
  destruct (Nat.eq_dec (len line) 80%nat) as [H | H];
    [|rewrite (ParseObs80_not80 line ocm H) in Hp; discriminate Hp].
  destruct (ParseObs80_80 line ocm H) as (decg & band & c14 & _ & Hb & _ & E).
  rewrite E in Hp. clear E. fold ts in Hp.
  assert (forall t : string, (len t =? 0)%nat = true <-> t = "") as Hz.
  { intros t. destruct t; simpl; split; intros C; congruence. }
  open_obs80 Hp; try discriminate Hp; injection Hp as <- <-; simpl;
    (split;
     [ intros Et; try reflexivity;
       match goal with
       | Hl : (len ts =? 0)%nat = false |- _ =>
           apply Hz in Et; congruence
       end
     | intros Et;
       match goal with
       | Hl : (len ts =? 0)%nat = true |- _ =>
           apply Hz in Hl; contradiction
       | _ => idtac
       end ]).
  all: eexists; eexists; split; [reflexivity|]; split; [eassumption|].
  all: repeat match goal with
              | Hc : byte_eqb ?a ?b = _ |- context [byte_eqb ?a ?b] =>
                  rewrite Hc
              end; reflexivity.
Qed.

Lemma ParseObs80_magnitude_witness :
  exists desig o,
    ParseObs80 o1Line sampleMap = Ret (Parsed desig o)
    /\ (TrimSpace (String.substring 65 5 o1Line) = "" -> VMag (Meas o) = 0%Q)
    /\ (TrimSpace (String.substring 65 5 o1Line) <> "" ->
        exists mag band,
          ParseFloat (TrimSpace (String.substring 65 5 o1Line)) = Some mag
          /\ String.get 70 o1Line = Some band
          /\ VMag (Meas o)
             = if byte_eqb band "V" then mag
               else if byte_eqb band "B" then (mag - (8 # 10))%Q
                    else (mag + (4 # 10))%Q).
Proof.
  assert (exists desig o, ParseObs80 o1Line sampleMap = Ret (Parsed desig o))
    as (desig & o & H) by (eexists; eexists; vm_compute; reflexivity).
  exists desig, o. split; [exact H|].
  exact (ParseObs80_magnitude o1Line sampleMap desig o H).
Defined.

(** *** The continuation line *)

Lemma slice_inv s lo hi r :
  slice s lo hi = Ret r ->
  r = String.substring lo (hi - lo) s /\ (lo <= hi)%nat /\ (hi <= len s)%nat.
Proof.
  unfold slice. destruct (lo <=? hi)%nat eqn:E1; [|discriminate].
  destruct (hi <=? len s)%nat eqn:E2; [|discriminate].
  simpl. intros [= <-].
  apply Nat.leb_le in E1. apply Nat.leb_le in E2. auto.
Qed.


(** X6.  [ParseSat2] is all or nothing.  When it returns an error, the error is
    one of its own five and the observation is as it was; when it merges,
    the line has at least 80 characters and agrees with line 1: trimmed
    designation, date (equal to the time of the observation) and site
    code. *)
Theorem ParseSat2_result (line des1 : string) (s1 s1' : SatObs)
        (r : option error) :
  ParseSat2 line des1 s1 = Ret (s1', r) ->
  match r with
  | Some e => s1' = s1 /\ sat2Error e
  | None =>
      (80 <= len line)%nat
      /\ TrimSpace (String.substring 0 12 line) = des1
      /\ String.substring 77 3 line = Sat s1
      /\ exists date2,
          ParseObs80Date (String.substring 15 17 line) = Ret (date2, true)
          /\ (date2 == MJD (satMeas s1))%Q
  end.
Proof.
  unfold ParseSat2, sliceTo. unfold mbind, exec_bind, bind.
  destruct (slice line 0 12) as [f|] eqn:Ef; [|discriminate].
  apply slice_inv in Ef as (-> & _ & _).
  destruct (String.eqb_spec (TrimSpace (String.substring 0 (12 - 0) line)) des1)
    as [Ed | Ed]; simpl negb; cbv iota;
    [|intros [= <- <-]; split; [reflexivity | exact I]].
  destruct (slice line 15 32) as [d|] eqn:Edt; [|discriminate].
  apply slice_inv in Edt as (-> & _ & _).
  destruct (ParseObs80Date _) as [[date2 ok]|] eqn:Ep; [|discriminate].
  destruct ok; simpl negb; cbv iota;
    [|intros [= <- <-]; split; [reflexivity | exact I]].
  destruct (Qeq_bool date2 (MJD (satMeas s1))) eqn:Eq; simpl negb; cbv iota;
    [|intros [= <- <-]; split; [reflexivity | exact I]].
  destruct (slice line 77 80) as [c|] eqn:Ec; [|discriminate].
  apply slice_inv in Ec as (-> & _ & Hlen).
  destruct (String.eqb_spec (String.substring 77 (80 - 77) line) (Sat s1))
    as [Es | Es]; simpl negb; cbv iota;
    [|intros [= <- <-]; split; [reflexivity | exact I]].
  destruct (slice line 34 46) as [fx|]; [|discriminate].
  destruct (parseMpcOffset fx) as [[x [|]]|]; simpl; try discriminate;
    [|intros [= <- <-]; split; [reflexivity | exact I]].
  destruct (slice line 46 58) as [fy|]; [|discriminate].
  destruct (parseMpcOffset fy) as [[y [|]]|]; simpl; try discriminate;
    [|intros [= <- <-]; split; [reflexivity | exact I]].
  destruct (slice line 58 70) as [fz|]; [|discriminate].
  destruct (parseMpcOffset fz) as [[z [|]]|]; simpl; try discriminate;
    [|intros [= <- <-]; split; [reflexivity | exact I]].
  destruct (index line 32) as [c32|]; [|discriminate].
  intros [= <- <-].
  split; [exact Hlen|]. split; [exact Ed|]. split; [exact Es|].
  exists date2. split; [first [exact Ep | reflexivity]|].
  apply Qeq_bool_iff. exact Eq.
Qed.

Lemma ParseSat2_result_witness :
  exists s1',
    ParseSat2 tcSatLine2 "03620" tcSat1 = Ret (s1', None)
    /\ (80 <= len tcSatLine2)%nat
    /\ TrimSpace (String.substring 0 12 tcSatLine2) = "03620"
    /\ String.substring 77 3 tcSatLine2 = Sat tcSat1
    /\ exists date2,
        ParseObs80Date (String.substring 15 17 tcSatLine2) = Ret (date2, true)
        /\ (date2 == MJD (satMeas tcSat1))%Q.
Proof.
  assert (exists s1', ParseSat2 tcSatLine2 "03620" tcSat1 = Ret (s1', None))
    as (s1' & H) by (eexists; vm_compute; reflexivity).
  exists s1'. split; [exact H|].
  exact (ParseSat2_result tcSatLine2 "03620" tcSat1 s1' None H).
Defined.



End Obs80More.

(** ** More on the arc splitter *)

Module ArcMore.

Import Obs80 Arc GoStrFacts ArcFacts Samples.

Section Facts.

Variable pMap : ParallaxMap.

(** *** A reader that fails *)

Lemma read_error_calls e k :
  forall st,
    lines (s st) = [] -> scanErr (readErr (s st)) = Some e ->
    (err st = None \/ err st = Some e) ->
    exists st', calls pMap k st = Ret (repeat (None, Some e) k, st').
Proof.
  induction k as [|k IH]; intros st Hl Hs He; [eexists; reflexivity|].
  assert (exists st1, next pMap st = Ret (None, Some e, st1)
                      /\ lines (s st1) = []
                      /\ scanErr (readErr (s st1)) = Some e
                      /\ (err st1 = None \/ err st1 = Some e))
    as (st1 & Hn & Hl1 & Hs1 & He1).
  { unfold next. destruct He as [He | He]; rewrite He.
    - rewrite Hl. simpl. rewrite Hs. eexists. split; [reflexivity|].
      simpl. auto.
    - eexists. split; [reflexivity|]. simpl. auto. }
  destruct (IH st1 Hl1 Hs1 He1) as (st2 & Hc).
  exists st2. simpl. unfold mbind, exec_bind, bind. rewrite Hn, Hc. reflexivity.
Qed.

(** *** Progress *)

Lemma parseError_pending rest rerr a desig e r e' st1 :
  parseError rest rerr a desig e = (r, e', st1) ->
  (pending st1 < 2 * length rest + 2
                 + match Obs a with [] => 0 | _ => 2 end)%nat
  /\ readErr (s st1) = rerr.
Proof.
  unfold parseError, pending.
  destruct (Obs a); intros [= <- <- <-]; simpl; split; try reflexivity; lia.
Qed.

Lemma arcLoop_pending ls :
  forall rerr a desig o r e st1,
    scanErr rerr = None ->
    arcLoop pMap ls rerr a desig o = Ret (r, e, st1) ->
    e <> Some EOF ->
    (pending st1 < 2 * length ls + match Obs a with [] => 0 | _ => 2 end)%nat
    /\ readErr (s st1) = rerr.
Proof.
  induction ls as [|line rest IH]; intros rerr a desig o r e st1 Hs H Hne.
  - simpl in H. rewrite Hs in H.
    destruct (Obs a) eqn:E; injection H as <- <- <-; [contradiction|].
    unfold pending. simpl. split; [lia | reflexivity].
  - simpl in H. change (length (line :: rest)) with (S (length rest)).
    assert (forall e0, Ret (parseError rest rerr a desig e0) = Ret (r, e, st1) ->
                       (pending st1
                        < 2 * S (length rest)
                          + match Obs a with [] => 0 | _ => 2 end)%nat
                       /\ readErr (s st1) = rerr) as Hfail.
    { intros e0 He0. injection He0 as He0.
      destruct (parseError_pending _ _ _ _ _ _ _ _ He0) as [H1 H2].
      split; [lia | exact H2]. }
    destruct (negb (len line =? 80)%nat); [exact (Hfail _ H)|].
    unfold mbind, exec_bind, bind in H.
    destruct (index line 14) as [c|]; [|discriminate].
    destruct (byte_eqb c "s").
    + destruct o as [[sv | s1]|]; try exact (Hfail _ H).
      destruct (ParseSat2 line desig s1) as [[s1' [e0|]]|];
        [exact (Hfail _ H) | | discriminate].
      destruct (IH _ _ _ _ _ _ _ Hs H Hne) as [H1 H2].
      split; [|exact H2]. simpl Obs in H1.
      destruct (setLast (Obs a) (VSat s1')), (Obs a); lia.
    + destruct (ParseObs80 line pMap) as [[d' ob | d' e0]|]; [| |discriminate].
      * destruct (Obs a) as [|x l] eqn:E.
        -- destruct (IH _ _ _ _ _ _ _ Hs H Hne) as [H1 H2].
           split; [|exact H2]. simpl in H1. lia.
        -- destruct (String.eqb d' (Desig a)).
           ++ destruct (IH _ _ _ _ _ _ _ Hs H Hne) as [H1 H2].
              split; [|exact H2]. simpl in H1. lia.
           ++ injection H as <- <- <-. unfold pending. simpl.
              split; [lia | reflexivity].
      * injection H as H.
        destruct (parseError_pending _ _ _ _ _ _ _ _ H) as [H1 H2].
        split; [lia | exact H2].
Qed.

Lemma next_pending st r e st1 :
  scanErr (readErr (s st)) = None ->
  next pMap st = Ret (r, e, st1) ->
  e <> Some EOF ->
  (pending st1 < pending st)%nat /\ readErr (s st1) = readErr (s st).
Proof.
  intros Hs H Hne. unfold next in H. destruct (err st) as [e0|] eqn:Ee.
  - injection H as <- <- <-. unfold pending. simpl. rewrite Ee.
    split; [lia | reflexivity].
  - destruct (arcLoop_pending _ _ _ _ _ _ _ _ Hs H Hne) as [H1 H2].
    split; [|exact H2]. unfold pending at 2. rewrite Ee.
    destruct (o st); simpl in H1; lia.
Qed.

Lemma next_eof_no_arc st r st1 :
  next pMap st = Ret (r, Some EOF, st1) -> r = None.
Proof.
  intros H. unfold next in H. destruct (err st) as [e0|].
  - injection H as <- _ _. reflexivity.
  - apply arcLoop_eof in H; [|destruct (o st); reflexivity].
    destruct H as [H _]. destruct (H eq_refl) as [Hr _]. exact Hr.
Qed.

Lemma calls_reach_eof k :
  forall st hist st',
    scanErr (readErr (s st)) = None ->
    (pending st < k)%nat ->
    calls pMap k st = Ret (hist, st') ->
    In (None, Some EOF) hist.
Proof.
  induction k as [|k IH]; intros st hist st' Hs Hp H; [lia|].
  simpl in H. unfold mbind, exec_bind, bind in H.
  destruct (next pMap st) as [[[r e] st1]|] eqn:Hn; [|discriminate].
  destruct (calls pMap k st1) as [[h2 st2]|] eqn:Hc; [|discriminate].
  injection H as <- <-. simpl.
  destruct e as [[]|];
    try (right;
         destruct (next_pending st _ _ _ Hs Hn ltac:(discriminate)) as [H1 H2];
         apply (IH st1 h2 st2); [rewrite H2; exact Hs | lia | exact Hc]).
  left. rewrite (next_eof_no_arc st r st1 Hn). reflexivity.
Qed.

(** *** The errors *)

Lemma ParseSat2_err_kind line d s1 s1' e :
  ParseSat2 line d s1 = Ret (s1', Some e) -> sat2Error e.
Proof.
  unfold ParseSat2. unfold mbind, exec_bind, bind.
  repeat match goal with
         | |- context [match ?x with _ => _ end] =>
             match x with
             | context [match _ with _ => _ end] => fail 1
             | _ => destruct x
             end
         end;
    intros H; try discriminate H; injection H as _ <-; exact I.
Qed.

Lemma parseError_kind rest rerr a desig e r e' st1 :
  parseError rest rerr a desig e = (r, e', st1) ->
  errorKind rerr e ->
  (forall e0, e' = Some e0 -> errorKind rerr e0)
  /\ (forall e0, err st1 = Some e0 -> errorKind rerr e0)
  /\ readErr (s st1) = rerr.
Proof.
  unfold parseError. intros H Hk.
  destruct (Obs a); injection H as <- <- <-; simpl;
    (split; [|split; [|reflexivity]]); intros e0 [=]; subst; exact Hk.
Qed.

Lemma arcLoop_kind ls :
  forall rerr a desig o r e st1,
    arcLoop pMap ls rerr a desig o = Ret (r, e, st1) ->
    (forall e0, e = Some e0 -> errorKind rerr e0)
    /\ (forall e0, err st1 = Some e0 -> errorKind rerr e0)
    /\ readErr (s st1) = rerr.
Proof.
  induction ls as [|line rest IH]; intros rerr a desig o r e st1 H.
  - simpl in H. destruct (scanErr rerr) as [e1|] eqn:Es.
    + injection H as <- <- <-. simpl.
      split; [|split; [|reflexivity]]; intros e0 [= <-];
        right; left; exact Es.
    + destruct (Obs a); injection H as <- <- <-; simpl;
        (split; [|split; [|reflexivity]]); intros e0 [=]; subst;
        left; reflexivity.
  - simpl in H.
    assert (forall e1, Ret (parseError rest rerr a desig e1) = Ret (r, e, st1) ->
                       errorKind rerr e1 ->
                       (forall e0, e = Some e0 -> errorKind rerr e0)
                       /\ (forall e0, err st1 = Some e0 -> errorKind rerr e0)
                       /\ readErr (s st1) = rerr) as Hfail.
    { intros e1 He1 Hk. injection He1 as He1.
      exact (parseError_kind _ _ _ _ _ _ _ _ He1 Hk). }
    assert (forall e1, errorKind rerr (ArcError e1)) as Harc
        by (intros e1; right; right; left; eauto).
    destruct (negb (len line =? 80)%nat); [exact (Hfail _ H (Harc _))|].
    unfold mbind, exec_bind, bind in H.
    destruct (index line 14) as [c|]; [|discriminate].
    destruct (byte_eqb c "s").
    + destruct o as [[sv | s1]|]; try exact (Hfail _ H (Harc _)).
      destruct (ParseSat2 line desig s1) as [[s1' [e1|]]|] eqn:HP;
        [| |discriminate].
      * apply (Hfail _ H). right; right; right.
        exact (ParseSat2_err_kind _ _ _ _ _ HP).
      * exact (IH _ _ _ _ _ _ _ H).
    + destruct (ParseObs80 line pMap) as [[d' ob | d' e1]|]; [| |discriminate].
      * destruct (Obs a) as [|x l].
        -- exact (IH _ _ _ _ _ _ _ H).
        -- destruct (String.eqb d' (Desig a)).
           ++ exact (IH _ _ _ _ _ _ _ H).
           ++ injection H as <- <- <-. simpl.
              split; [|split; [|reflexivity]]; intros e0 [=].
      * injection H as H.
        exact (parseError_kind _ _ _ _ _ _ _ _ H (Harc _)).
Qed.

Lemma calls_kind n :
  forall st hist st',
    (forall e0, err st = Some e0 -> errorKind (readErr (s st)) e0) ->
    calls pMap n st = Ret (hist, st') ->
    forall r e, In (r, Some e) hist -> errorKind (readErr (s st)) e.
Proof.
  induction n as [|n IH]; intros st hist st' Hk H r e Hin.
  - injection H as <- <-. destruct Hin.
  - simpl in H. unfold mbind, exec_bind, bind in H.
    destruct (next pMap st) as [[[r1 e1] st1]|] eqn:Hn; [|discriminate].
    destruct (calls pMap n st1) as [[h2 st2]|] eqn:Hc; [|discriminate].
    injection H as <- <-. simpl in Hin.
    assert ((forall e0, e1 = Some e0 -> errorKind (readErr (s st)) e0)
            /\ (forall e0, err st1 = Some e0 -> errorKind (readErr (s st)) e0)
            /\ readErr (s st1) = readErr (s st)) as (K1 & K2 & K3).
    { unfold next in Hn. destruct (err st) as [e0|] eqn:Ee.
      - injection Hn as <- <- <-. simpl.
        split; [|split; [|reflexivity]]; intros e2 [=]; subst.
        apply Hk. reflexivity.
      - exact (arcLoop_kind _ _ _ _ _ _ _ _ Hn). }
    destruct Hin as [[= -> ->] | Hin].
    + apply K1. reflexivity.
    + rewrite <- K3. apply (IH st1 h2 st2) with (r := r);
        [|exact Hc | exact Hin].
      rewrite K3. exact K2.
Qed.

(** *** Two calls *)

Lemma next_arc st arc st' :
  next pMap st = Ret (Some arc, None, st') ->
  (o st <> None -> Desig arc = desig st)
  /\ exists tail, Ending pMap arc (readErr (s st)) tail st'.
Proof.
  intros H.
  destruct (err st) as [e0|] eqn:He.
  { unfold next in H. rewrite He in H. discriminate H. }
  destruct (next_enter pMap st He) as (a0 & En & Ha0 & Ho & Hd0).
  rewrite En in H.
  apply arcLoop_arc in H.
  - destruct H as (run & tail & Hl & HR & Hne & HD & HE).
    split; [|exists tail; exact HE].
    intros Hc. rewrite Ha0 in HD.
    assert (carry st <> []) as Hcn
        by (unfold carry; destruct (o st); [discriminate|contradiction]).
    rewrite (HD Hcn). exact (Hd0 Hcn).
  - rewrite Ha0. exact Ho.
  - rewrite Ha0. intros Hc. symmetry. exact (Hd0 Hc).
Qed.

End Facts.

(** X8.  A read error is fatal and loses the arc under construction: when the
    lines left in the stream all belong to the arc being built and the reader
    then fails with [e], the call returns [e] with no arc, and so does every
    later call; the observations decoded from those lines are never
    returned. *)
Theorem read_error_discards_arc (pMap : ParallaxMap) (st : splitter)
        (d : string) (out : list VObs) (e : error) (k : nat) :
  err st = None ->
  (o st <> None -> desig st = d) ->
  Run pMap d (carry st) (lines (s st)) out ->
  scanErr (readErr (s st)) = Some e ->
  exists st',
    calls pMap (S k) st = Ret (repeat (None, Some e) (S k), st').
Proof.
  intros He Hd HR Hs.
  destruct (next_enter pMap st He) as (a0 & En & Ha0 & Ho & Hd0).
  destruct (arcLoop_run pMap d _ _ out HR [] (readErr (s st)) a0 (desig st) (o st))
    as (a' & desig' & El & _).
  - exact Ha0.
  - intros Hc. specialize (Hd (carry_nonempty st Hc)).
    split; [rewrite (Hd0 Hc)|]; exact Hd.
  - exact Ho.
  - rewrite app_nil_r in El.
    assert (exists st1, next pMap st = Ret (None, Some e, st1)
                        /\ lines (s st1) = []
                        /\ scanErr (readErr (s st1)) = Some e
                        /\ err st1 = Some e) as (st1 & Hn & Hl1 & Hs1 & He1).
    { rewrite En, El. simpl. rewrite Hs. eexists. split; [reflexivity|].
      simpl. auto. }
    destruct (read_error_calls pMap e k st1 Hl1 Hs1 (or_intror He1))
      as (st2 & Hc).
    exists st2. simpl. unfold mbind, exec_bind, bind.
    rewrite Hn. simpl in Hc. rewrite Hc. reflexivity.
Qed.

Lemma read_error_discards_arc_witness :
  exists st',
    calls sampleMap 3
          (ArcSplitter (mkScanner [o2Line1; o2Line2] (Some (ReadError "reset"))))
    = Ret (repeat (None, Some (ReadError "reset")) 3, st').
Proof.
  eapply (read_error_discards_arc
            sampleMap
            (ArcSplitter (mkScanner [o2Line1; o2Line2] (Some (ReadError "reset"))))
            "NE00199" _ (ReadError "reset") 2).
  - reflexivity.
  - intros C. exfalso. apply C. reflexivity.
  - eapply run_obs;
      [split; [reflexivity|]; split;
       [eexists; split; reflexivity | vm_compute; reflexivity]|].
    eapply run_obs;
      [split; [reflexivity|]; split;
       [eexists; split; reflexivity | vm_compute; reflexivity]|].
    apply run_nil.
  - reflexivity.
Defined.

(** X9.  A line that fails to parse when the arc under construction is empty is
    reported by the same call: the call returns the error together with an
    arc that has no observation, consumes the line, and carries nothing. *)
Theorem parse_failure_at_once (pMap : ParallaxMap) (st : splitter)
        (d bad : string) (rest : list string) (e : error) :
  err st = None -> o st = None ->
  lines (s st) = bad :: rest ->
  ParseFails pMap d [] bad e ->
  exists st',
    next pMap st = Ret (Some (mkArc (Desig (a st)) []), Some e, st')
    /\ s st' = mkScanner rest (readErr (s st))
    /\ o st' = None /\ err st' = None.
Proof.
  intros He Ho Hl Hf. unfold next. rewrite He, Ho, Hl.
  destruct Hf as [line Hlen | line d' e Hlen (c & Hc & Hs) HP
                  | line Hlen (c & Hc & Hs) Hlast
                  | line s1 s1' e Hlen (c & Hc & Hs) Hlast HP]; simpl.
  - apply Nat.eqb_neq in Hlen. rewrite Hlen. simpl.
    eexists. split; [reflexivity|]. simpl. auto.
  - rewrite Hlen. simpl. unfold mbind, exec_bind, bind. rewrite Hc, Hs, HP.
    eexists. split; [reflexivity|]. simpl. auto.
  - rewrite Hlen. simpl. unfold mbind, exec_bind, bind. rewrite Hc, Hs.
    eexists. split; [reflexivity|]. simpl. auto.
  - discriminate Hlast.
Qed.

Lemma parse_failure_at_once_witness :
  exists st',
    next sampleMap (ArcSplitter (mkScanner [short; o1Line] None))
    = Ret (Some (mkArc "" []), Some (ArcError (ErrLineLength 60)), st')
    /\ s st' = mkScanner [o1Line] None
    /\ o st' = None /\ err st' = None.
Proof.
  apply (parse_failure_at_once sampleMap
           (ArcSplitter (mkScanner [short; o1Line] None)) "" short [o1Line]
           (ArcError (ErrLineLength 60))).
  - reflexivity.
  - reflexivity.
  - reflexivity.
  - apply (fails_length sampleMap "" [] short). simpl. lia.
Defined.

(** X10.  A caller that calls until [io.EOF] stops: on a stream of [n] lines that
    the reader ends without error, [io.EOF] is returned, with no arc, within
    the first [2n+1] calls (unless the decoder panics). *)
Theorem eof_within (pMap : ParallaxMap) (rObs : Scanner)
        (hist : list (option Arc * option error)) (st : splitter) :
  scanErr (readErr rObs) = None ->
  calls pMap (2 * length (lines rObs) + 1) (ArcSplitter rObs) = Ret (hist, st) ->
  In (None, Some EOF) hist.
Proof.
  intros Hs H.
  apply (calls_reach_eof pMap (2 * length (lines rObs) + 1)
                         (ArcSplitter rObs) hist st); [exact Hs| |exact H].
  unfold pending. simpl. lia.
Qed.

Lemma eof_within_witness :
  exists hist st,
    calls sampleMap (2 * length badMix + 1) (ArcSplitter (mkScanner badMix None))
    = Ret (hist, st)
    /\ In (None, Some EOF) hist.
Proof.
  assert (exists hist st,
             calls sampleMap (2 * length badMix + 1)
                   (ArcSplitter (mkScanner badMix None)) = Ret (hist, st))
    as (hist & st & H) by (eexists; eexists; vm_compute; reflexivity).
  exists hist, st. split; [exact H|].
  exact (eof_within sampleMap (mkScanner badMix None) hist st eq_refl H).
Defined.

(** X11.  Arcs returned by two successive calls have different designations: an
    arc is cut only where the designation changes, unless an error is
    returned in between. *)
Theorem successive_arcs_differ (pMap : ParallaxMap) (st st1 st2 : splitter)
        (arc1 arc2 : Arc) :
  next pMap st = Ret (Some arc1, None, st1) ->
  next pMap st1 = Ret (Some arc2, None, st2) ->
  Desig arc1 <> Desig arc2.
Proof.
  intros H1 H2.
  destruct (next_arc pMap st arc1 st1 H1) as [_ [tail HE]].
  destruct (next_arc pMap st1 arc2 st2 H2) as [Hd2 _].
  destruct HE as [st1 _ _ _ He | t rest d2 o2 st1 _ Hne _ Hd Ho _
                  | t rest e st1 _ _ _ He].
  - unfold next in H2. rewrite He in H2. discriminate H2.
  - rewrite (Hd2 ltac:(rewrite Ho; discriminate)), Hd. congruence.
  - unfold next in H2. rewrite He in H2. discriminate H2.
Qed.

Lemma successive_arcs_differ_witness :
  exists arc1 arc2 st1 st2,
    next sampleMap (ArcSplitter (mkScanner [o1Line; o2Line1; o2Line2] None))
    = Ret (Some arc1, None, st1)
    /\ next sampleMap st1 = Ret (Some arc2, None, st2)
    /\ Desig arc1 <> Desig arc2.
Proof.
  assert (exists arc1 st1,
             next sampleMap (ArcSplitter (mkScanner [o1Line; o2Line1; o2Line2] None))
             = Ret (Some arc1, None, st1)) as (arc1 & st1 & H1)
      by (eexists; eexists; vm_compute; reflexivity).
  assert (exists arc2 st2, next sampleMap st1 = Ret (Some arc2, None, st2))
    as (arc2 & st2 & H2).
  { vm_compute in H1. injection H1 as <- <-.
    eexists; eexists; vm_compute; reflexivity. }
  exists arc1, arc2, st1, st2. split; [exact H1|]. split; [exact H2|].
  exact (successive_arcs_differ sampleMap _ st1 st2 arc1 arc2 H1 H2).
Defined.

(** X12.  Every error the calls on a fresh splitter return is [io.EOF], the error
    of the reader, an [ArcError], or one of the errors of [ParseSat2]: the
    error of a failed merge is returned as [ParseSat2] made it, without the
    [ArcError] wrapper. *)
Theorem returned_errors (pMap : ParallaxMap) (rObs : Scanner) (n : nat)
        (hist : list (option Arc * option error)) (st : splitter)
        (r : option Arc) (e : error) :
  calls pMap n (ArcSplitter rObs) = Ret (hist, st) ->
  In (r, Some e) hist ->
  errorKind (readErr rObs) e.
Proof.
  intros H Hin.
  apply (calls_kind pMap n (ArcSplitter rObs) hist st) with (r := r);
    [|exact H | exact Hin].
  intros e0 C. discriminate C.
Qed.

Lemma returned_errors_witness :
  errorKind None (ArcError (ErrLineLength 60)).
Proof.
  eapply (returned_errors sampleMap (mkScanner badMix None) 2 _ _ None).
  - vm_compute. reflexivity.
  - right. left. reflexivity.
Defined.



End ArcMore.

(** ** More on the tracklet clusterer *)

Module TrackletMore.

Import Tracklet TrackletSamples TrackletFacts.

(** *** The pieces [reduce] accepts *)

Lemma andThen_ret x y r :
  andThen x y = Some (Ret r) ->
  exists r1 r2, x = Some (Ret r1) /\ y = Some (Ret r2) /\ r = r1 ++ r2.
Proof.
  destruct x as [[r1|]|]; simpl; try discriminate.
  destruct y as [[r2|]|]; simpl; try discriminate.
  intros [= <-]. eauto.
Qed.

Lemma Segs_one set : spanOk set -> Segs set [appendTl set].
Proof.
  intros H. exists [set]. simpl. rewrite app_nil_r.
  repeat split. constructor; [exact H | constructor].
Qed.

Lemma Segs_app l1 l2 r1 r2 :
  Segs l1 r1 -> Segs l2 r2 -> Segs (l1 ++ l2) (r1 ++ r2).
Proof.
  intros (g1 & -> & <- & F1) (g2 & -> & <- & F2).
  exists (g1 ++ g2). rewrite map_app, concat_app.
  repeat split. apply Forall_app. split; assumption.
Qed.

Lemma Segs_split n set r1 r2 :
  Segs (take n set) r1 -> Segs (drop n set) r2 -> Segs set (r1 ++ r2).
Proof.
  intros H1 H2. pose proof (Segs_app _ _ _ _ H1 H2) as H.
  rewrite take_drop in H. exact H.
Qed.

Lemma spanOk_single x : spanOk [x].
Proof.
  exists x, x. repeat split.
  assert (mjd x - mjd x == 0)%Q as E by ring. rewrite E. reflexivity.
Qed.

Lemma spanOk_lt set lo hi (b : Q) :
  head set = Some lo -> last set = Some hi ->
  Qltb (mjd hi - mjd lo) b = true -> (b <= 1 # 2)%Q -> spanOk set.
Proof.
  intros Hh Hl Hb Hle. exists lo, hi. repeat split; try assumption.
  apply Qltb_lt in Hb. eapply Qlt_le_trans; eauto.
Qed.

Lemma sameNightPair_span l : sameNightPair l = true -> spanOk l.
Proof.
  destruct l as [|x [|y [|z l]]]; simpl; try discriminate.
  intros H. exists x, y. repeat split. apply Qltb_lt. exact H.
Qed.

(** The tracklets [reduce] appends are the tracklets of consecutive pieces
    of the slice, each spanning less than half a day. *)
Lemma reduce_segs fuel :
  forall set r, reduce fuel set = Some (Ret r) -> Segs set r.
Proof.
  induction fuel as [|fuel IH]; intros set r H; [discriminate|].
  destruct set as [|s0 [|s1 rest]].
  - discriminate.
  - rewrite reduce_single in H. injection H as <-.
    apply Segs_one, spanOk_single.
  - rewrite reduce_unfold2 in H.
    destruct (last (s0 :: s1 :: rest)) as [hi|] eqn:Ehi; [|discriminate].
    set (set := s0 :: s1 :: rest) in *.
    assert (head set = Some s0) as Eh by reflexivity.
    assert (forall b, Qltb (mjd hi - mjd s0) b = true -> (b <= 1 # 2)%Q ->
                      Segs set [appendTl set]) as Hwhole.
    { intros b Hb Hle. apply Segs_one. eapply spanOk_lt; eauto. }
    assert (forall x y, andThen (reduce fuel (take x set)) (reduce fuel (drop y set))
                        = Some (Ret r) -> x = y -> Segs set r) as Hrec.
    { intros x y Ha <-. apply andThen_ret in Ha as (r1 & r2 & H1 & H2 & ->).
      apply (Segs_split x); apply IH; assumption. }
    destruct (Qltb (mjd hi - mjd s0) (42 # 1000)) eqn:E1.
    { injection H as <-. apply (Hwhole _ E1). discriminate. }
    destruct ((length set <=? 5)%nat && Qltb (mjd hi - mjd s0) (125 # 1000))
      eqn:E2.
    { injection H as <-. apply andb_true_iff in E2 as [_ E2].
      apply (Hwhole _ E2). discriminate. }
    destruct (length set =? 2)%nat eqn:E3.
    { destruct (Qltb (mjd hi - mjd s0) (1 # 2)) eqn:E4; injection H as <-.
      - apply (Hwhole _ E4). apply Qle_refl.
      - apply Nat.eqb_eq in E3. unfold set in *. simpl in E3.
        destruct rest; [|simpl in E3; lia]. simpl.
        apply (Segs_app [s0] [s1] [appendTl [s0]] [appendTl [s1]]);
          apply Segs_one, spanOk_single. }
    set (split := gapLoop 2 rest (mjd s1) (mjd s1 - mjd s0)%Q 1) in *.
    destruct ((3 <=? length (take split set))%nat
              && (3 <=? length (drop split set))%nat).
    { apply (Hrec _ _ H eq_refl). }
    destruct (sameNightPair (take split set) && (2 <=? length (drop split set))%nat)
      eqn:E5.
    { apply andb_true_iff in E5 as [E5 _].
      apply andThen_ret in H as (r1 & r2 & [= <-] & H2 & ->).
      apply (Segs_split split).
      - apply Segs_one, sameNightPair_span, E5.
      - apply IH. exact H2. }
    destruct (sameNightPair (drop split set) && (2 <=? length (take split set))%nat)
      eqn:E6.
    { apply andb_true_iff in E6 as [E6 _].
      apply andThen_ret in H as (r1 & r2 & H1 & [= <-] & ->).
      apply (Segs_split split).
      - apply IH. exact H1.
      - apply Segs_one, sameNightPair_span, E6. }
    destruct ((length set =? 3)%nat && Qltb (mjd hi - mjd s0) (1 # 2)) eqn:E7.
    { injection H as <-. apply andb_true_iff in E7 as [_ E7].
      apply (Hwhole _ E7). apply Qle_refl. }
    destruct (Qltb (mjd hi - mjd s0) (1 # 4)) eqn:E8.
    { injection H as <-. apply (Hwhole _ E8). discriminate. }
    apply (Hrec _ _ H eq_refl).
Qed.

Lemma reduced_segs set : set <> [] -> Segs set (reduced set).
Proof.
  intros H. apply (reduce_segs (length set)). apply reduced_ret. exact H.
Qed.


(** *** Every entity in one slice *)










(** *** What a tracklet holds *)

Lemma sorted_app_inv {A} (R : A -> A -> Prop) (l1 l2 : list A) :
  StronglySorted R (l1 ++ l2) -> StronglySorted R l1 /\ StronglySorted R l2.
Proof.
  induction l1 as [|x l1 IH]; simpl; intros H.
  - split; [constructor | exact H].
  - inversion H as [|? ? Hs Hall]; subst.
    destruct (IH Hs) as [H1 H2]. split; [|exact H2].
    constructor; [exact H1|].
    apply Forall_app in Hall. tauto.
Qed.

Lemma last_In {A} (l : list A) x : last l = Some x -> In x l.
Proof.
  induction l as [|a [|b l] IH]; simpl; intros H; [discriminate| |].
  - injection H as <-. left. reflexivity.
  - right. apply IH. exact H.
Qed.

Lemma head_In {A} (l : list A) x : head l = Some x -> In x l.
Proof.
  destruct l as [|a l]; simpl; intros H; [discriminate|].
  injection H as <-. left. reflexivity.
Qed.

Lemma sorted_bounds (l : list td) lo hi x :
  StronglySorted (fun a b => mjd a <= mjd b)%Q l ->
  head l = Some lo -> last l = Some hi -> In x l ->
  (mjd lo <= mjd x)%Q /\ (mjd x <= mjd hi)%Q.
Proof.
  intros Hs Hh Hl Hx. split.
  - destruct l as [|a l]; [discriminate|]. injection Hh as ->.
    inversion Hs as [|? ? _ Hall]; subst.
    destruct Hx as [<- | Hx]; [apply Qle_refl|].
    rewrite List.Forall_forall in Hall. apply Hall. exact Hx.
  - clear Hh. induction Hs as [|a l Hs IH Hall]; [destruct Hx|].
    destruct l as [|b l].
    + injection Hl as <-. destruct Hx as [<- | []]. apply Qle_refl.
    + change (last (b :: l) = Some hi) in Hl.
      destruct Hx as [<- | Hx]; [|apply IH; assumption].
      rewrite List.Forall_forall in Hall. apply Hall. apply last_In. exact Hl.
Qed.

(** A tracklet of a slice is the tracklet of a piece of it that spans less
    than half a day. *)
Lemma reduced_piece set t :
  set <> [] -> In t (reduced set) ->
  exists pre seg post,
    set = pre ++ seg ++ post /\ t = appendTl seg /\ spanOk seg.
Proof.
  intros Hne Ht. destruct (reduced_segs set Hne) as (segs & E & <- & F).
  rewrite E in Ht. apply in_map_iff in Ht as (seg & <- & Hin).
  apply in_split in Hin as (s1 & s2 & ->).
  exists (concat s1), seg, (concat s2).
  rewrite concat_app. simpl. repeat split.
  rewrite List.Forall_forall in F. apply F.
  apply in_or_app. right. left. reflexivity.
Qed.

(** The entity behind an element of an observer's slice. *)
Lemma group_time ts k d :
  In d (group k 0 ts) ->
  (index d < length ts)%nat
  /\ tsObserver (nth (index d) ts (mkTS 0 "")) = k
  /\ timeAt ts (index d) = mjd d.
Proof.
  intros H. destruct (group_In ts k 0 d H) as (t & Hn & _ & Ho & Hm).
  rewrite Nat.sub_0_r in Hn.
  split; [apply nth_error_Some; congruence|].
  unfold timeAt. rewrite (nth_error_nth _ _ _ Hn). split; congruence.
Qed.

Lemma group_index_iff ts k :
  forall i j,
    In j (map index (group k i ts))
    <-> (i <= j < i + length ts)%nat
        /\ tsObserver (nth (j - i) ts (mkTS 0 "")) = k.
Proof.
  induction ts as [|t r IH]; intros i j; simpl.
  - split; [intros [] | intros [H _]; lia].
  - assert (In j (map index (group k (S i) r))
            <-> (i < j < i + S (length r))%nat
                /\ tsObserver (nth (j - i) (t :: r) (mkTS 0 "")) = k) as Hrest.
    { rewrite IH. split.
      - intros [H1 H2]. split; [lia|].
        replace (j - i)%nat with (S (j - S i)) by lia. exact H2.
      - intros [H1 H2]. split; [lia|].
        replace (j - i)%nat with (S (j - S i)) in H2 by lia. exact H2. }
    destruct (String.eqb_spec (tsObserver t) k) as [E | E]; simpl.
    + rewrite Hrest. split.
      * intros [<- | [H1 H2]].
        -- split; [lia|]. rewrite Nat.sub_diag. exact E.
        -- split; [lia | exact H2].
      * intros [H1 H2]. destruct (Nat.eq_dec i j) as [-> | Hne]; [left; reflexivity|].
        right. split; [lia | exact H2].
    + rewrite Hrest. split.
      * intros [H1 H2]. split; [lia | exact H2].
      * intros [H1 H2]. split; [|exact H2].
        destruct (Nat.eq_dec i j) as [-> | Hne]; [|lia].
        rewrite Nat.sub_diag in H2. contradiction.
Qed.

Lemma sum_times ts seg :
  (forall d, In d seg -> timeAt ts (index d) = mjd d) ->
  forall acc,
    fold_left (fun s i => s + timeAt ts i)%Q (map index seg) acc
    = fold_left (fun s o => s + mjd o)%Q seg acc.
Proof.
  induction seg as [|d seg IH]; intros H acc; simpl; [reflexivity|].
  rewrite (H d) by (left; reflexivity).
  apply IH. intros d' Hd'. apply H. right. exact Hd'.
Qed.

Lemma appendTl_mean ts seg :
  (forall d, In d seg -> timeAt ts (index d) = mjd d) ->
  mean (appendTl seg) = meanTime ts (tkIndex (appendTl seg)).
Proof.
  intros H. unfold meanTime, appendTl. simpl.
  rewrite (sum_times ts seg H), length_map. reflexivity.
Qed.

Lemma sorted_map_key {A B} (f : A -> B) (ka : A -> Q) (kb : B -> Q) (l : list A) :
  (forall a, In a l -> kb (f a) = ka a) ->
  StronglySorted (fun x y => ka x <= ka y)%Q l ->
  StronglySorted (fun x y => kb x <= kb y)%Q (map f l).
Proof.
  intros H Hs. induction Hs as [|a l Hs IH Hall]; simpl; constructor.
  - apply IH. intros a' Ha'. apply H. right. exact Ha'.
  - apply Forall_map. rewrite List.Forall_forall in *. intros b Hb.
    rewrite (H a) by (left; reflexivity).
    rewrite (H b) by (right; exact Hb). apply Hall. exact Hb.
Qed.

Section Members.

Variable gosort : forall A : Type, (A -> A -> bool) -> list A -> list A.

Hypothesis gosort_perm :
  forall (A : Type) (less : A -> A -> bool) (l : list A),
    Permutation (gosort A less l) l.

Variables (keys : list string) (ts : list TrackletSplitter).

Hypothesis Hr : rangeOrder (collect 0 ts ∅) keys.

(** Every tracklet of the list is the tracklet of a piece, spanning less
    than half a day, of the sorted slice of one observer. *)
Lemma tracklet_piece t :
  In t (flat_map (fun k => reduced (gosort td datedLess (group k 0 ts))) keys) ->
  exists k pre seg post,
    In k keys
    /\ gosort td datedLess (group k 0 ts) = pre ++ seg ++ post
    /\ t = appendTl seg /\ spanOk seg
    /\ forall d, In d seg -> In d (group k 0 ts).
Proof.
  intros Ht. apply in_flat_map in Ht as (k & Hk & Ht).
  apply reduced_piece in Ht as (pre & seg & post & E & -> & Hs).
  2: { apply (gosort_nonempty gosort gosort_perm).
       eapply rangeOrder_group; eauto. }
  exists k, pre, seg, post. repeat split; try assumption.
  intros d Hd.
  apply (Permutation_in _ (gosort_perm td datedLess (group k 0 ts))).
  rewrite E. apply in_or_app. right. apply in_or_app. left. exact Hd.
Qed.

Lemma tracklet_piece_out out tr :
  FindTrackletsIndex gosort keys ts = Some (Ret out) -> In tr out ->
  exists k pre seg post,
    In k keys
    /\ gosort td datedLess (group k 0 ts) = pre ++ seg ++ post
    /\ tr = map index seg /\ spanOk seg
    /\ forall d, In d seg -> In d (group k 0 ts).
Proof.
  rewrite (FindTrackletsIndex_ret gosort gosort_perm keys ts Hr).
  intros [= <-] Htr. apply in_map_iff in Htr as (t & <- & Ht).
  apply (Permutation_in _ (gosort_perm tk tkLess _)) in Ht.
  apply tracklet_piece in Ht as (k & pre & seg & post & Hk & E & -> & Hs & Hg).
  exists k, pre, seg, post. repeat split; assumption.
Qed.

Lemma tracklet_mean t :
  In t (flat_map (fun k => reduced (gosort td datedLess (group k 0 ts))) keys) ->
  mean t = meanTime ts (tkIndex t).
Proof.
  intros Ht.
  apply tracklet_piece in Ht as (k & pre & seg & post & Hk & E & -> & Hs & Hg).
  apply appendTl_mean. intros d Hd. apply (group_time ts k d). apply Hg, Hd.
Qed.

End Members.

(** X15.  Every tracklet returned is non-empty and holds indices of entities of
    one observer, no two of which are half a day or more apart. *)
Theorem tracklet_one_observer_one_night
        (gosort : forall A : Type, (A -> A -> bool) -> list A -> list A)
        (keys : list string) (ts : list TrackletSplitter) :
  (forall (A : Type) (less : A -> A -> bool) (l : list A),
      Permutation (gosort A less l) l) ->
  (forall l, StronglySorted (fun x y => mjd x <= mjd y)%Q
                            (gosort td datedLess l)) ->
  rangeOrder (collect 0 ts ∅) keys ->
  exists out,
    FindTrackletsIndex gosort keys ts = Some (Ret out)
    /\ forall tr, In tr out ->
         tr <> []
         /\ forall i j, In i tr -> In j tr ->
              (i < length ts)%nat
              /\ tsObserver (nth i ts (mkTS 0 "")) = tsObserver (nth j ts (mkTS 0 ""))
              /\ (timeAt ts i - timeAt ts j < 1 # 2)%Q.
Proof.
  intros Hperm Hsd Hr.
  pose proof (FindTrackletsIndex_ret gosort Hperm keys ts Hr) as HF.
  eexists. split; [exact HF|]. intros tr Htr.
  destruct (tracklet_piece_out gosort Hperm keys ts Hr _ tr HF Htr)
    as (k & pre & seg & post & Hk & E & -> & (lo & hi & Hlo & Hhi & Hspan) & Hg).
  split.
  { destruct seg; [discriminate Hlo | discriminate]. }
  intros i j Hi Hj.
  apply in_map_iff in Hi as (di & <- & Hdi).
  apply in_map_iff in Hj as (dj & <- & Hdj).
  destruct (group_time ts k di (Hg _ Hdi)) as (Li & Oi & Ti).
  destruct (group_time ts k dj (Hg _ Hdj)) as (Lj & Oj & Tj).
  split; [exact Li|]. split; [congruence|].
  rewrite Ti, Tj.
  pose proof (Hsd (group k 0 ts)) as S. rewrite E in S.
  apply sorted_app_inv in S as [_ S]. apply sorted_app_inv in S as [S _].
  destruct (sorted_bounds seg lo hi di S Hlo Hhi Hdi) as [_ Bi].
  destruct (sorted_bounds seg lo hi dj S Hlo Hhi Hdj) as [Bj _].
  eapply Qle_lt_trans; [|exact Hspan].
  unfold Qminus. apply Qplus_le_compat; [exact Bi|].
  apply Qopp_le_compat. exact Bj.
Qed.

Lemma tracklet_one_observer_one_night_witness :
  exists out,
    FindTrackletsIndex (@insertionSort) ["F51"; "G96"] interleaved = Some (Ret out)
    /\ forall tr, In tr out ->
         tr <> []
         /\ forall i j, In i tr -> In j tr ->
              (i < length interleaved)%nat
              /\ tsObserver (nth i interleaved (mkTS 0 ""))
                 = tsObserver (nth j interleaved (mkTS 0 ""))
              /\ (timeAt interleaved i - timeAt interleaved j < 1 # 2)%Q.
Proof.
  apply (tracklet_one_observer_one_night (@insertionSort) ["F51"; "G96"] interleaved).
  - exact insertionSort_perm.
  - intros l. exact (insertionSort_sorted mjd l).
  - apply rangeOrder_observers. apply perm_swap.
Defined.

(** X16.  The members of every tracklet returned are listed in ascending order of
    their times. *)
Theorem tracklet_members_ascending
        (gosort : forall A : Type, (A -> A -> bool) -> list A -> list A)
        (keys : list string) (ts : list TrackletSplitter) :
  (forall (A : Type) (less : A -> A -> bool) (l : list A),
      Permutation (gosort A less l) l) ->
  (forall l, StronglySorted (fun x y => mjd x <= mjd y)%Q
                            (gosort td datedLess l)) ->
  rangeOrder (collect 0 ts ∅) keys ->
  exists out,
    FindTrackletsIndex gosort keys ts = Some (Ret out)
    /\ forall tr, In tr out ->
         StronglySorted (fun i j => timeAt ts i <= timeAt ts j)%Q tr.
Proof.
  intros Hperm Hsd Hr.
  pose proof (FindTrackletsIndex_ret gosort Hperm keys ts Hr) as HF.
  eexists. split; [exact HF|]. intros tr Htr.
  destruct (tracklet_piece_out gosort Hperm keys ts Hr _ tr HF Htr)
    as (k & pre & seg & post & Hk & E & -> & _ & Hg).
  pose proof (Hsd (group k 0 ts)) as S. rewrite E in S.
  apply sorted_app_inv in S as [_ S]. apply sorted_app_inv in S as [S _].
  apply (sorted_map_key index mjd (timeAt ts)); [|exact S].
  intros d Hd. apply (group_time ts k d). apply Hg, Hd.
Qed.

Lemma tracklet_members_ascending_witness :
  exists out,
    FindTrackletsIndex (@insertionSort) ["F51"; "G96"] interleaved = Some (Ret out)
    /\ forall tr, In tr out ->
         StronglySorted (fun i j => timeAt interleaved i <= timeAt interleaved j)%Q tr.
Proof.
  apply (tracklet_members_ascending (@insertionSort) ["F51"; "G96"] interleaved).
  - exact insertionSort_perm.
  - intros l. exact (insertionSort_sorted mjd l).
  - apply rangeOrder_observers. apply perm_swap.
Defined.

(** X17.  The tracklets are returned in ascending order of the mean time of their
    members. *)
Theorem tracklets_by_mean_time
        (gosort : forall A : Type, (A -> A -> bool) -> list A -> list A)
        (keys : list string) (ts : list TrackletSplitter) :
  (forall (A : Type) (less : A -> A -> bool) (l : list A),
      Permutation (gosort A less l) l) ->
  (forall l, StronglySorted (fun x y => mean x <= mean y)%Q
                            (gosort tk tkLess l)) ->
  rangeOrder (collect 0 ts ∅) keys ->
  exists out,
    FindTrackletsIndex gosort keys ts = Some (Ret out)
    /\ StronglySorted (fun a b => meanTime ts a <= meanTime ts b)%Q out.
Proof.
  intros Hperm Hst Hr.
  rewrite (FindTrackletsIndex_ret gosort Hperm keys ts Hr).
  eexists. split; [reflexivity|].
  apply (sorted_map_key tkIndex mean (meanTime ts)); [|apply Hst].
  intros t Ht. symmetry.
  apply (tracklet_mean gosort Hperm keys ts Hr).
  apply (Permutation_in _ (Hperm tk tkLess _)). exact Ht.
Qed.

Lemma tracklets_by_mean_time_witness :
  exists out,
    FindTrackletsIndex (@insertionSort) ["F51"; "G96"] interleaved = Some (Ret out)
    /\ StronglySorted
         (fun a b => meanTime interleaved a <= meanTime interleaved b)%Q out.
Proof.
  apply (tracklets_by_mean_time (@insertionSort) ["F51"; "G96"] interleaved).
  - exact insertionSort_perm.
  - intros l. exact (insertionSort_sorted mean l).
  - apply rangeOrder_observers. apply perm_swap.
Defined.

(** X18.  The observations of an observer that all lie within 0.042 day of each
    other, or that are at most five and within 0.125 day, form one tracklet:
    a tracklet returned holds exactly the indices of that observer's
    entities. *)
Theorem close_observations_one_tracklet
        (gosort : forall A : Type, (A -> A -> bool) -> list A -> list A)
        (keys : list string) (ts : list TrackletSplitter) (k : string) (b : Q) :
  (forall (A : Type) (less : A -> A -> bool) (l : list A),
      Permutation (gosort A less l) l) ->
  rangeOrder (collect 0 ts ∅) keys ->
  In k keys ->
  (forall x y, In x ts -> In y ts -> tsObserver x = k -> tsObserver y = k ->
               (tsMJD x - tsMJD y < b)%Q) ->
  (b == 42 # 1000)%Q
  \/ ((b == 125 # 1000)%Q /\ (length (group k 0 ts) <= 5)%nat) ->
  exists out tr,
    FindTrackletsIndex gosort keys ts = Some (Ret out)
    /\ In tr out
    /\ forall i, In i tr
                 <-> (i < length ts)%nat /\ tsObserver (nth i ts (mkTS 0 "")) = k.
Proof.
  intros Hperm Hr Hk Hclose Hb.
  rewrite (FindTrackletsIndex_ret gosort Hperm keys ts Hr).
  set (G := gosort td datedLess (group k 0 ts)).
  assert (Permutation G (group k 0 ts)) as PG by apply Hperm.
  assert (G <> []) as HG.
  { apply (gosort_nonempty gosort Hperm). eapply rangeOrder_group; eauto. }
  assert (reduced G = [appendTl G]) as HR.
  { unfold reduced. destruct G as [|x l] eqn:EG; [contradiction|].
    rewrite <- EG in *. replace (length G) with (S (length l)) by (rewrite EG; reflexivity).
    rewrite reduce_unfold.
    destruct (last_nonempty G HG) as [hi Hhi]. rewrite Hhi.
    assert (head G = Some x) as Hlo by (rewrite EG; reflexivity). rewrite Hlo.
    assert (mjd hi - mjd x < b)%Q as Hd.
    { assert (forall d, In d G -> exists t, In t ts /\ tsObserver t = k
                                            /\ mjd d = tsMJD t) as Hent.
      { intros d Hd. apply (Permutation_in _ PG) in Hd.
        destruct (group_In ts k 0 d Hd) as (t & Hn & _ & Ho & Hm).
        exists t. split; [eapply nth_error_In; eauto | auto]. }
      destruct (Hent hi (last_In _ _ Hhi)) as (th & Hth & Oh & ->).
      destruct (Hent x (head_In _ _ Hlo)) as (tl & Htl & Ol & ->).
      apply Hclose; assumption. }
    cbv zeta.
    destruct Hb as [Eb | [Eb Hlen]].
    - rewrite Eb in Hd. apply Qltb_lt in Hd. rewrite Hd. reflexivity.
    - rewrite Eb in Hd. apply Qltb_lt in Hd. rewrite Hd.
      assert ((length G <=? 5)%nat = true) as ->.
      { apply Nat.leb_le. rewrite (Permutation_length PG). exact Hlen. }
      simpl. destruct (Qltb (mjd hi - mjd x) (42 # 1000)); reflexivity. }
  exists (map tkIndex
              (gosort tk tkLess
                      (flat_map
                         (fun k0 => reduced (gosort td datedLess (group k0 0 ts)))
                         keys))),
         (map index G).
  split; [reflexivity|]. split.
  - apply in_map_iff. exists (appendTl G). split; [reflexivity|].
    apply (Permutation_in _ (Permutation_sym (Hperm tk tkLess _))).
    apply in_flat_map. exists k. split; [exact Hk|].
    fold G. rewrite HR. left. reflexivity.
  - intros i.
    assert (In i (map index G) <-> In i (map index (group k 0 ts))) as ->.
    { split; apply Permutation_in; [|symmetry]; apply Permutation_map, PG. }
    rewrite group_index_iff, Nat.sub_0_r. simpl. split.
    + intros [[_ H1] H2]. split; assumption.
    + intros [H1 H2]. split; [lia | exact H2].
Qed.

Lemma close_observations_one_tracklet_witness :
  exists out tr,
    FindTrackletsIndex (@insertionSort) ["F51"; "G96"] interleaved = Some (Ret out)
    /\ In tr out
    /\ forall i, In i tr
                 <-> (i < length interleaved)%nat
                     /\ tsObserver (nth i interleaved (mkTS 0 "")) = "F51".
Proof.
  apply (close_observations_one_tracklet
           (@insertionSort) ["F51"; "G96"] interleaved "F51" (42 # 1000)).
  - exact insertionSort_perm.
  - apply rangeOrder_observers. apply perm_swap.
  - left. reflexivity.
  - intros x y Hx Hy Ox Oy.
    destruct Hx as [<- | [<- | [<- | []]]]; try discriminate Ox;
      destruct Hy as [<- | [<- | [<- | []]]]; try discriminate Oy;
      reflexivity.
  - left. reflexivity.
Defined.

End TrackletMore.

(** ** The fields of the export format read as bool *)

Module ExportFacts.

Import ExportFormat GoStrFacts.

(** A byte shifted left by eight bits or more is zero. *)
Lemma shiftedBit_high c k : 8 <= k -> shiftedBit c k = false.
Proof.
  intros Hk. unfold shiftedBit, wrap8.
  apply negb_false_iff, Z.eqb_eq.
  rewrite Z.shiftl_mul_pow2 by lia.
  replace k with (8 + (k - 8)) by lia. rewrite Z.pow_add_r by lia.
  replace (Z.land (byteVal c) 1 * (2 ^ 8 * 2 ^ (k - 8)))
    with (Z.land (byteVal c) 1 * 2 ^ (k - 8) * 2 ^ 8) by ring.
  apply Z_mod_mult.
Qed.

(** X19.  The fields NEO, Km, Seen, Crit and PHA are always stored as false:
    whatever byte the record holds in the column of the field, the closure
    [boolFunc] returns stores false, since the bit it tests has been shifted
    out of the byte. *)
Theorem flag_fields_always_false (name : string) (dd : decodeData) :
  In name flagFields ->
  exists f,
    boolFunc dd name = Ret f
    /\ forall data, (start dd < len data)%nat -> f data = Ret false.
Proof.
  intros H. unfold flagFields in H. simpl in H.
  destruct H as [<- | [<- | [<- | [<- | [<- | []]]]]];
    (eexists; split; [reflexivity|]);
    intros data Hlen; destruct (index_ret data (start dd) Hlen) as [c ->];
    simpl; rewrite shiftedBit_high by lia; reflexivity.
Qed.

Lemma flag_fields_always_false_witness :
  exists f,
    boolFunc (mkDD 162 163 terpBool) "NEO" = Ret f
    /\ forall data, (162 < len data)%nat -> f data = Ret false.
Proof.
  apply (flag_fields_always_false "NEO" (mkDD 162 163 terpBool)).
  left. reflexivity.
Defined.

(** X20.  [boolFunc] has a case for every field the table gives the
    interpretation [terpBool]: called with such a field, as
    [NewExportUnmarshaler] calls it, it does not reach its panic. *)
Theorem bool_fields_have_a_case (name : string) (dd : decodeData) :
  tFieldMap !! name = Some dd -> terpOf dd = terpBool ->
  exists f, boolFunc dd name = Ret f.
Proof.
  intros H Ht. unfold tFieldMap in H.
  apply elem_of_list_to_map_2, list_elem_of_In in H.
  unfold tFieldList in H. simpl in H.
  repeat (destruct H as [H | H];
          [injection H as <- <-;
           first [discriminate Ht | eexists; reflexivity] |]).
  destruct H.
Qed.

Lemma bool_fields_have_a_case_witness :
  exists f, boolFunc (mkDD 161 162 terpBool) "PHA" = Ret f.
Proof.
  apply (bool_fields_have_a_case "PHA" (mkDD 161 162 terpBool)).
  - vm_compute. reflexivity.
  - reflexivity.
Defined.

End ExportFacts.

(** ** Split *)

Module SplitFacts.

Import Obs80 Samples Arc Split.

Lemma bind_inv {A B} (m : exec A) (k : A -> exec B) (r : B) :
  (x ← m; k x) = Ret r -> exists a, m = Ret a /\ k a = Ret r.
Proof.
  unfold mbind, exec_bind, bind. destruct m as [a|]; [eauto | discriminate].
Qed.

(** The loop over the times accepts a list whose times increase from
    above [t0]. *)
Lemma increasing_sorted obuf :
  forall t0,
    increasing t0 obuf = true ->
    StronglySorted Qlt (t0 :: map (fun ob => MJD (Meas ob)) obuf).
Proof.
  induction obuf as [|ob r IH]; intros t0 H; simpl in *.
  - repeat constructor.
  - destruct (Qle_bool (MJD (Meas ob)) t0) eqn:E; [discriminate|].
    assert (t0 < MJD (Meas ob))%Q as Hlt.
    { apply Qnot_le_lt. intros C. apply Qle_bool_iff in C. congruence. }
    specialize (IH _ H). inversion IH as [|? ? Hs Hall]; subst.
    constructor; [exact IH|].
    constructor; [exact Hlt|].
    rewrite List.Forall_forall in *. intros x Hx.
    eapply Qlt_trans; [exact Hlt | apply Hall, Hx].
Qed.

(** What [sendValid] sends is at most one arc, which is valid. *)
Lemma sendValid_sends d buf :
  sendValid d buf = Ret []
  \/ (sendValid d buf = Ret [ArcSent (mkArc d buf)] /\ ValidArc (mkArc d buf)).
Proof.
  unfold sendValid. destruct (length buf <? 2)%nat eqn:E1; [left; reflexivity|].
  destruct (increasing 0 buf) eqn:E2; simpl; [|left; reflexivity].
  destruct buf as [|x l]; [discriminate E1|].
  change (head (x :: l)) with (Some x).
  destruct (last (x :: l)) as [lst|] eqn:E3.
  2: { exfalso. clear - E3. revert x E3.
       induction l as [|y l IH]; intros x E3; [discriminate|].
       exact (IH y E3). }
  destruct (Qeq_bool (RA (Meas x)) (RA (Meas lst))
            && Qeq_bool (Dec (Meas x)) (Dec (Meas lst))) eqn:E4;
    [left; reflexivity|].
  right. split; [reflexivity|]. repeat split.
  - apply Nat.ltb_ge in E1. exact E1.
  - apply increasing_sorted. exact E2.
  - exists x, lst. repeat split; [exact E3|].
    intros [H1 H2]. apply Qeq_bool_iff in H1. apply Qeq_bool_iff in H2.
    rewrite H1, H2 in E4. discriminate E4.
Qed.

Section Events.

Variable ocdMap : ParallaxMap.

Variable P : event -> Prop.

Variable final : error.

Hypothesis P_arc : forall a, ValidArc a -> P (ArcSent a).

Hypothesis P_err : final <> EOF -> P (ErrSent final).

Lemma sendValid_all d buf evs :
  sendValid d buf = Ret evs -> Forall P evs.
Proof.
  intros H. destruct (sendValid_sends d buf) as [E | [E V]];
    rewrite E in H; injection H as <-; repeat constructor.
  apply P_arc. exact V.
Qed.

(** Every value [Split] sends is a valid arc, the error of the reader, or
    the error for a line longer than the buffer. *)
Lemma loop_all cs :
  Forall (fun c => snd c = true -> P LongLineSent) cs ->
  forall v evs, loop ocdMap cs final v = Ret evs -> Forall P evs.
Proof.
  induction cs as [|[bLine pre] rest IH]; intros Hl v evs H; simpl in H.
  - apply bind_inv in H as (sent & Hs & H).
    apply sendValid_all in Hs.
    destruct final eqn:Ef;
      try (injection H as <-; constructor;
           [apply P_err; discriminate | exact Hs]).
    injection H as <-. exact Hs.
  - inversion Hl as [|? ? Hpre Hrest]; subst. specialize (IH Hrest).
    destruct pre.
    { apply bind_inv in H as (sent & Hs & H). injection H as <-.
      constructor; [apply Hpre; reflexivity | eapply sendValid_all; eauto]. }
    destruct (len bLine =? 80)%nat; simpl in H; [|eapply IH; eauto].
    apply bind_inv in H as (c & _ & H).
    destruct (byte_eqb c "s").
    { destruct (o v) as [[s0|s1]|]; try solve [eapply IH; eauto].
      apply bind_inv in H as (r & _ & H). eapply IH; eauto. }
    apply bind_inv in H as (r & _ & H).
    destruct r as [d ob | d e].
    + destruct (obuf v) as [|x l] eqn:Eb; [eapply IH; eauto|].
      destruct (String.eqb d (des0 v)); [eapply IH; eauto|].
      apply bind_inv in H as (sent & Hs & H).
      apply bind_inv in H as (more & Hm & H). injection H as <-.
      apply Forall_app. split; [eapply sendValid_all; eauto | eapply IH; eauto].
    + apply bind_inv in H as (sent & Hs & H).
      apply bind_inv in H as (more & Hm & H). injection H as <-.
      apply Forall_app. split; [eapply sendValid_all; eauto | eapply IH; eauto].
Qed.

End Events.

(** X21.  Every arc [Split] sends has at least two observations, a first time
    above zero and increasing times, and a first and a last position that
    differ. *)
Theorem sent_arcs_valid (ocdMap : ParallaxMap) (iObs : LineReader)
        (evs : list event) (a : Arc) :
  Split ocdMap iObs = Ret evs -> In (ArcSent a) evs -> ValidArc a.
Proof.
  intros H Hin.
  pose proof (loop_all ocdMap
                (fun ev => forall a', ev = ArcSent a' -> ValidArc a')
                (endErr iObs)) as L.
  assert (Forall (fun ev => forall a', ev = ArcSent a' -> ValidArc a') evs) as F.
  { eapply L; [| | |exact H].
    - intros a' V a'' [= <-]. exact V.
    - intros _ a' C. discriminate C.
    - apply List.Forall_forall. intros c _ _ a' C. discriminate C. }
  rewrite List.Forall_forall in F. exact (F _ Hin a eq_refl).
Qed.

Lemma sent_arcs_valid_witness :
  ValidArc (mkArc "NE00199"
                  [match ParseObs80 o2Line1 sampleMap with
                   | Ret (Parsed _ ob) => ob
                   | _ => VSat tcSat1
                   end;
                   match ParseObs80 o2Line2 sampleMap with
                   | Ret (Parsed _ ob) => ob
                   | _ => VSat tcSat1
                   end]).
Proof.
  eapply (sent_arcs_valid
            sampleMap
            (mkLineReader [(o1Line, false); (o2Line1, false); (o2Line2, false)]
                          EOF)).
  - vm_compute. reflexivity.
  - left. vm_compute. reflexivity.
Defined.

(** X22.  Parse failures are never relayed: the only value [Split] sends on
    [errCh] is the error with which the reader ended, other than [io.EOF],
    or the error for a line longer than the buffer of the reader. *)
Theorem parse_errors_not_relayed (ocdMap : ParallaxMap) (iObs : LineReader)
        (evs : list event) :
  Split ocdMap iObs = Ret evs ->
  (forall e, In (ErrSent e) evs -> e = endErr iObs /\ e <> EOF)
  /\ (In LongLineSent evs -> exists b, In (b, true) (chunks iObs)).
Proof.
  intros H.
  pose proof (loop_all ocdMap
                (fun ev => match ev with
                           | ArcSent _ => True
                           | ErrSent e => e = endErr iObs /\ e <> EOF
                           | LongLineSent => exists b, In (b, true) (chunks iObs)
                           end)
                (endErr iObs)) as L.
  assert (Forall (fun ev => match ev with
                            | ArcSent _ => True
                            | ErrSent e => e = endErr iObs /\ e <> EOF
                            | LongLineSent => exists b, In (b, true) (chunks iObs)
                            end) evs) as F.
  { eapply L; [| | |exact H].
    - intros a' _. exact I.
    - intros Hne. split; [reflexivity | exact Hne].
    - apply List.Forall_forall. intros [b p] Hin Hp. simpl in Hp. subst p.
      exists b. exact Hin. }
  rewrite List.Forall_forall in F. split.
  - intros e Hin. exact (F _ Hin).
  - intros Hin. exact (F _ Hin).
Qed.

Lemma parse_errors_not_relayed_witness :
  exists evs,
    Split sampleMap (mkLineReader [(o1Line, false); (month13, true)]
                                  (ReadError "reset")) = Ret evs
    /\ (forall e, In (ErrSent e) evs -> e = ReadError "reset" /\ e <> EOF)
    /\ (In LongLineSent evs
        -> exists b, In (b, true) [(o1Line, false); (month13, true)]).
Proof.
  eexists. split; [vm_compute; reflexivity|].
  apply (parse_errors_not_relayed
           sampleMap
           (mkLineReader [(o1Line, false); (month13, true)] (ReadError "reset"))).
  vm_compute. reflexivity.
Defined.

(** X23.  A line whose length is not 80 is ignored: with or without it, [Split]
    sends the same values (or panics alike). *)
Theorem other_lengths_ignored (ocdMap : ParallaxMap)
        (before after : list (string * bool)) (l : string) (final : error) :
  len l <> 80%nat ->
  Split ocdMap (mkLineReader (before ++ (l, false) :: after) final)
  = Split ocdMap (mkLineReader (before ++ after) final).
Proof.
  intros Hl. unfold Split. simpl. generalize (mkVars "" None "" []).
  induction before as [|[b p] before IH]; intros v; simpl.
  - apply Nat.eqb_neq in Hl. rewrite Hl. reflexivity.
  - destruct p; [reflexivity|].
    destruct (len b =? 80)%nat; simpl; [|apply IH].
    destruct (index b 14) as [c|]; simpl; [|reflexivity].
    destruct (byte_eqb c "s").
    + destruct (o v) as [[s0|s1]|]; try apply IH.
      destruct (ParseSat2 b (desig v) s1) as [r|]; simpl; [apply IH | reflexivity].
    + destruct (ParseObs80 b ocdMap) as [[d ob | d e]|]; simpl; [| |reflexivity].
      * destruct (obuf v); [apply IH|].
        destruct (String.eqb d (des0 v)); [apply IH|].
        rewrite IH. reflexivity.
      * rewrite IH. reflexivity.
Qed.

Lemma other_lengths_ignored_witness :
  Split sampleMap (mkLineReader ([(o2Line1, false)] ++ (short, false)
                                   :: [(o2Line2, false)]) EOF)
  = Split sampleMap (mkLineReader ([(o2Line1, false)] ++ [(o2Line2, false)]) EOF).
Proof.
  apply (other_lengths_ignored sampleMap [(o2Line1, false)] [(o2Line2, false)]
                               short EOF).
  vm_compute. discriminate.
Defined.

End SplitFacts.

(** ** ReadObscodeDat *)

Module ObscodeFacts.

Import Obs80 Samples Obscode GoStrFacts Obs80More.

Section Read.

Variable AngleFromDeg : Q -> Q.

(** The body of the loop on a line of 30 bytes or more, with the slices
    resolved. *)
Lemma readLine_long m line :
  (30 <= len line)%nat ->
  readLine AngleFromDeg m line =
  match longitudeOf (TrimSpace (String.substring 4 9 line)) with
  | None => Ret m
  | Some longitude =>
      match rhoCosPhiOf (TrimSpace (String.substring 13 8 line)) with
      | None => Ret m
      | Some rhoCosPhi =>
          match rhoSinPhiOf (TrimSpace (String.substring 21 9 line)) with
          | None => Ret m
          | Some rhoSinPhi =>
              if Qeq_bool rhoCosPhi 0 && Qeq_bool rhoSinPhi 0
              then Ret (<[String.substring 0 3 line := None]> m)
              else Ret (<[String.substring 0 3 line :=
                            Some (mkParallaxConst (AngleFromDeg longitude)
                                                  rhoCosPhi rhoSinPhi)]> m)
          end
      end
  end.
Proof.
  intros H. unfold readLine.
  assert ((len line <? 30)%nat = false) as -> by (apply Nat.ltb_ge; exact H).
  rewrite !slice_ret by lia. simpl Nat.sub.
  unfold mbind, exec_bind, bind.
  destruct (longitudeOf _); [|reflexivity].
  destruct (rhoCosPhiOf _); [|reflexivity].
  destruct (rhoSinPhiOf _); reflexivity.
Qed.

Lemma readLine_short m line :
  (len line < 30)%nat -> readLine AngleFromDeg m line = Ret m.
Proof.
  intros H. unfold readLine. apply Nat.ltb_lt in H. rewrite H. reflexivity.
Qed.

(** A line leaves the map as it is or stores its first three bytes. *)
Lemma readLine_cases m line :
  readLine AngleFromDeg m line = Ret m
  \/ ((30 <= len line)%nat
      /\ exists v, readLine AngleFromDeg m line
                   = Ret (<[String.substring 0 3 line := v]> m)).
Proof.
  destruct (Nat.lt_ge_cases (len line) 30) as [H | H].
  - left. apply readLine_short. exact H.
  - rewrite (readLine_long m line H).
    destruct (longitudeOf _); [|left; reflexivity].
    destruct (rhoCosPhiOf _); [|left; reflexivity].
    destruct (rhoSinPhiOf _); [|left; reflexivity].
    right. split; [exact H|].
    destruct (Qeq_bool _ _ && Qeq_bool _ _); eexists; reflexivity.
Qed.

Lemma readLines_ret ls :
  forall m, exists m', readLines AngleFromDeg ls m = Ret m'.
Proof.
  induction ls as [|l ls IH]; intros m; simpl; [eauto|].
  destruct (readLine_cases m l) as [-> | [_ [v ->]]]; apply IH.
Qed.

Lemma readLines_keys ls :
  forall m m' k,
    readLines AngleFromDeg ls m = Ret m' -> is_Some (m' !! k) ->
    is_Some (m !! k)
    \/ exists line, In line ls /\ (30 <= len line)%nat
                    /\ k = String.substring 0 3 line.
Proof.
  induction ls as [|l ls IH]; intros m m' k H Hk; simpl in H.
  - injection H as <-. left. exact Hk.
  - destruct (readLine_cases m l) as [E | [Hlen [v E]]]; rewrite E in H.
    + destruct (IH _ _ _ H Hk) as [Hm | (line & Hin & Hl & Hs)];
        [left; exact Hm|].
      right. exists line. split; [right; exact Hin | auto].
    + destruct (IH _ _ _ H Hk) as [Hm | (line & Hin & Hl & Hs)].
      * destruct (decide (k = String.substring 0 3 l)) as [-> | Hne].
        -- right. exists l. split; [left; reflexivity | auto].
        -- left. rewrite lookup_insert_ne in Hm by congruence. exact Hm.
      * right. exists line. split; [right; exact Hin | auto].
Qed.

(** Lines for other codes leave the entry of a code as it is. *)
Lemma readLines_other ls k :
  (forall l, In l ls -> (30 <= len l)%nat -> String.substring 0 3 l <> k) ->
  forall m m', readLines AngleFromDeg ls m = Ret m' -> m' !! k = m !! k.
Proof.
  induction ls as [|l ls IH]; intros Hne m m' H; simpl in H.
  - injection H as <-. reflexivity.
  - assert (forall l0, In l0 ls -> (30 <= len l0)%nat
                       -> String.substring 0 3 l0 <> k) as Hne'.
    { intros l0 Hl0. apply Hne. right. exact Hl0. }
    destruct (readLine_cases m l) as [E | [Hlen [v E]]]; rewrite E in H.
    + apply (IH Hne' _ _ H).
    + rewrite (IH Hne' _ _ H). apply lookup_insert_ne.
      apply Hne; [left; reflexivity | exact Hlen].
Qed.

Lemma readLines_app l1 l2 :
  forall m m',
    readLines AngleFromDeg (l1 ++ l2) m = Ret m' ->
    exists m1, readLines AngleFromDeg l1 m = Ret m1
               /\ readLines AngleFromDeg l2 m1 = Ret m'.
Proof.
  induction l1 as [|l l1 IH]; intros m m' H; simpl in *; [eauto|].
  destruct (readLine_cases m l) as [E | [_ [v E]]]; rewrite E in *;
    apply IH; exact H.
Qed.

End Read.

(** X24.  [ReadObscodeDat] does not panic, whatever the data: it returns a map or
    an error. *)
Theorem ReadObscodeDat_returns (AngleFromDeg : Q -> Q) (r : Reader) :
  exists res, ReadObscodeDat AngleFromDeg r = Ret res.
Proof.
  unfold ReadObscodeDat. destruct (snd r); [eauto|].
  destruct (readLines_ret AngleFromDeg (splitLines (fst r)) ∅) as [m ->].
  simpl. destruct (decide (m = ∅)); eauto.
Qed.

(** X25.  Every key of the map returned is the first three bytes of a line of 30
    bytes or more of the data. *)
Theorem keys_are_codes (AngleFromDeg : Q -> Q) (r : Reader)
        (m : ParallaxMap) (k : string) :
  ReadObscodeDat AngleFromDeg r = Ret (inl m) ->
  is_Some (m !! k) ->
  exists line,
    In line (splitLines (fst r)) /\ (30 <= len line)%nat
    /\ k = String.substring 0 3 line /\ len k = 3%nat.
Proof.
  unfold ReadObscodeDat. intros H Hk.
  destruct (snd r); [discriminate H|].
  destruct (readLines_ret AngleFromDeg (splitLines (fst r)) ∅) as [m0 E].
  rewrite E in H. simpl in H.
  destruct (decide (m0 = ∅)); [discriminate H|]. injection H as <-.
  destruct (readLines_keys AngleFromDeg _ _ _ _ E Hk)
    as [[x Hx] | (line & Hin & Hl & ->)].
  - rewrite lookup_empty in Hx. discriminate Hx.
  - exists line. repeat split; try assumption.
    apply length_substring. unfold len in Hl. lia.
Qed.

Lemma keys_are_codes_witness :
  exists line,
    In line (splitLines ocdSample) /\ (30 <= len line)%nat
    /\ "250" = String.substring 0 3 line /\ len "250" = 3%nat.
Proof.
  eapply (keys_are_codes angleFromDeg (ocdSample, None) _ "250").
  - vm_compute. reflexivity.
  - vm_compute. eexists. reflexivity.
Defined.

(** X26.  A site whose line in the data has parallax constants that are blank or
    zero, and no later line, is stored as nil, and every observation
    [ParseObs80] decodes for that site against the map is a satellite
    observation. *)
Theorem nil_site_decodes_as_satellite (AngleFromDeg : Q -> Q)
        (b : string) (m : ParallaxMap)
        (before after : list string) (line : string) (lon rc rs : Q) :
  ReadObscodeDat AngleFromDeg (b, None) = Ret (inl m) ->
  splitLines b = before ++ line :: after ->
  (30 <= len line)%nat ->
  longitudeOf (TrimSpace (String.substring 4 9 line)) = Some lon ->
  rhoCosPhiOf (TrimSpace (String.substring 13 8 line)) = Some rc ->
  rhoSinPhiOf (TrimSpace (String.substring 21 9 line)) = Some rs ->
  (rc == 0)%Q -> (rs == 0)%Q ->
  (forall l, In l after -> (30 <= len l)%nat
             -> String.substring 0 3 l <> String.substring 0 3 line) ->
  m !! String.substring 0 3 line = Some None
  /\ forall l80 desig o,
       ParseObs80 l80 m = Ret (Parsed desig o) ->
       String.substring 77 3 l80 = String.substring 0 3 line ->
       exists s1, o = VSat s1 /\ Sat s1 = String.substring 0 3 line.
Proof.
  intros H Hs Hlen Hlon Hrc Hrs Zc Zs Hafter.
  assert (m !! String.substring 0 3 line = Some None) as Hm.
  { unfold ReadObscodeDat in H. simpl in H. rewrite Hs in H.
    destruct (readLines_ret AngleFromDeg (before ++ line :: after) ∅) as [m0 E].
    rewrite E in H. simpl in H.
    destruct (decide (m0 = ∅)); [discriminate H|]. injection H as <-.
    apply readLines_app in E as (m1 & _ & E). simpl in E.
    rewrite (readLine_long AngleFromDeg m1 line Hlen), Hlon, Hrc, Hrs in E.
    apply Qeq_bool_iff in Zc. apply Qeq_bool_iff in Zs.
    rewrite Zc, Zs in E. simpl in E.
    rewrite (readLines_other AngleFromDeg after _ Hafter _ _ E).
    apply lookup_insert_eq. }
  split; [exact Hm|].
  intros l80 desig o Hp Hc.
  destruct (Nat.eq_dec (len l80) 80%nat) as [H80 | H80];
    [|rewrite (ParseObs80_not80 l80 m H80) in Hp; discriminate Hp].
  destruct (ParseObs80_80 l80 m H80) as (decg & band & c14 & _ & _ & _ & E).
  rewrite E in Hp. clear E. rewrite Hc in Hp. cbv zeta in Hp.
  rewrite Hm in Hp.
  open_obs80 Hp; try discriminate Hp;
    injection Hp as <- <-; eexists; split; reflexivity.
Qed.

Lemma nil_site_decodes_as_satellite_witness :
  exists m,
    ReadObscodeDat angleFromDeg (ocdSample, None) = Ret (inl m)
    /\ m !! String.substring 0 3 ocdHubble = Some None
    /\ forall l80 desig o,
         ParseObs80 l80 m = Ret (Parsed desig o) ->
         String.substring 77 3 l80 = String.substring 0 3 ocdHubble ->
         exists s1, o = VSat s1 /\ Sat s1 = String.substring 0 3 ocdHubble.
Proof.
  eexists. split; [vm_compute; reflexivity|].
  eapply (nil_site_decodes_as_satellite
            angleFromDeg ocdSample _
            [""; ocdHeading; ocdGreenwich; ocdHipparcos] [""] ocdHubble 0 0 0).
  - vm_compute. reflexivity.
  - vm_compute. reflexivity.
  - vm_compute. lia.
  - vm_compute. reflexivity.
  - vm_compute. reflexivity.
  - vm_compute. reflexivity.
  - reflexivity.
  - reflexivity.
  - intros l [<- | []] Hl. vm_compute in Hl. lia.
Defined.

End ObscodeFacts.
